(** * ContFramePool: a contiguous frame allocator over a byte-per-frame map

    A shallow embedding of [cont_frame_pool.C].  A pool keeps one byte of
    state per frame in a region of physical memory ([bitmap]) and a cached
    count of free frames; all pools hang off a global list that the static
    [release_frames] walks.

    Integers: [unsigned long] and [unsigned int] are taken as 32-bit words,
    as on the 32-bit x86 target such a kernel is written for (frame numbers
    are cast to pointers); they are modelled as [Z] with the wrap-around
    written out by [wrap].  Physical memory is a total map from byte addresses
    to byte values: the bitmap is a raw pointer, so an index past the pool's
    frame count still reads and writes memory. *)

From Stdlib Require Import ZArith Lia Bool List.
From stdpp Require Import base list.

Local Open Scope Z_scope.

(** ** Machine words *)

Definition wordsize : Z := 32.
Definition modulus : Z := 2 ^ wordsize.

(** Unsigned 32-bit arithmetic: every result is reduced modulo [2^32]. *)
Definition wrap (x : Z) : Z := x mod modulus.

(** A value of type [int] (two's complement, 32 bits). *)
Definition to_int (x : Z) : Z :=
  let u := wrap x in if u <? modulus / 2 then u else u - modulus.

(** ** Frame states, as the bytes the source stores *)

Definition FREE : Z := 0xFF.
Definition HEAD : Z := 0x77.
Definition ALLOCATED : Z := 0xAA.
(** The two further bytes the source writes: the pool's own first frame and
    frames marked inaccessible.  Neither is one of the three named states. *)
Definition OWN_FRAME : Z := 0x0.
Definition INACCESSIBLE : Z := 0x80.

(** ** Physical memory *)

Definition memory : Type := Z -> Z.

Definition store (m : memory) (a v : Z) : memory :=
  fun a' => if a' =? a then v else m a'.

(** ** The pool object *)

Record ContFramePool : Type := mkPool {
  base_frame_no : Z;
  nframes : Z;
  nFreeFrames : Z;
  info_frame_no : Z;
  n_info_frames : Z;
  bitmap : Z  (* address of the first state byte *)
}.

Definition set_nFreeFrames (p : ContFramePool) (v : Z) : ContFramePool :=
  mkPool (base_frame_no p) (nframes p) v (info_frame_no p) (n_info_frames p)
         (bitmap p).

(** The kernel state the allocator touches: memory and the list of pools
    hanging off the static [pool_head], in [pool_next] order. *)
Record kernel : Type := mkKernel {
  mem : memory;
  pool_head : list ContFramePool
}.

(** How a call ends. *)
Inductive outcome (A : Type) : Type :=
| Returns (a : A)   (* ran to its end *)
| Fatal             (* an [assert] failed *)
| Running (a : A).  (* the loop budget ran out; [a] is the state so far *)
Arguments Returns {A} a.
Arguments Fatal {A}.
Arguments Running {A} a.

(** ** get_frames *)

(** [while (counter > 1) { frame_head++; bitmap[frame_head] = 0xAA;
    nFreeFrames--; counter--; }], run for its [counter - 1] iterations. *)
Fixpoint mark_allocated (k : nat) (bm : Z) (m : memory) (frame_head nFree : Z)
  : memory * Z :=
  match k with
  | O => (m, nFree)
  | S k' =>
      let frame_head := wrap (frame_head + 1) in
      mark_allocated k' bm (store m (bm + frame_head) ALLOCATED)
                     frame_head (wrap (nFree - 1))
  end.

(** The [for (i = 0; i < nframes - 1; i++)] loop; [steps] is the number of
    iterations left. *)
Fixpoint scan (steps : nat) (m : memory) (p : ContFramePool) (_n_frames : Z)
  (i frame_head counter : Z) : memory * ContFramePool * Z :=
  match steps with
  | O => (m, p, 0)
  | S steps' =>
      let '(frame_head, counter) :=
        if m (bitmap p + i) =? FREE
        then ((if counter =? 0 then i else frame_head), wrap (counter + 1))
        else (frame_head, 0) in
      if counter =? _n_frames then
        let frame_number := wrap (wrap (base_frame_no p) + frame_head) in
        let m1 := store m (bitmap p + frame_head) HEAD in
        let nFree1 := wrap (nFreeFrames p - 1) in
        let '(m2, nFree2) :=
          mark_allocated (Z.to_nat (counter - 1)) (bitmap p) m1 frame_head
                         nFree1 in
        (m2, set_nFreeFrames p nFree2, frame_number)
      else scan steps' m p _n_frames (wrap (i + 1)) frame_head counter
  end.

Definition get_frames (m : memory) (p : ContFramePool) (_n_frames : Z)
  : memory * ContFramePool * Z :=
  if (nFreeFrames p =? 0) || (nFreeFrames p <? _n_frames) then (m, p, 0)
  else scan (Z.to_nat (wrap (nframes p - 1))) m p _n_frames 0 0 0.

(** ** mark_inaccessible *)

(** The single-frame form: range [assert], then the byte 0x80 and one
    decrement, whatever the frame's state was. *)
Definition mark_inaccessible (m : memory) (p : ContFramePool) (_frame_no : Z)
  : outcome (memory * ContFramePool) :=
  if (base_frame_no p <=? _frame_no)
     && (_frame_no <? wrap (base_frame_no p + nframes p))
  then
    let bitmap_index := wrap (_frame_no - base_frame_no p) in
    Returns (store m (bitmap p + bitmap_index) INACCESSIBLE,
             set_nFreeFrames p (wrap (nFreeFrames p - 1)))
  else Fatal.

(** The range form, [for (i = _base_frame_no; i < _base_frame_no + _n_frames;
    i++) mark_inaccessible(i);].  The [int] counter is converted back to
    [unsigned long] both in the comparison and in the call, so the loop is
    followed on that unsigned value [i]; [steps] is the number of iterations
    left. *)
Fixpoint mark_inaccessible_loop (steps : nat) (m : memory) (p : ContFramePool)
  (i : Z) : outcome (memory * ContFramePool) :=
  match steps with
  | O => Returns (m, p)
  | S steps' =>
      match mark_inaccessible m p i with
      | Returns (m', p') => mark_inaccessible_loop steps' m' p' (wrap (i + 1))
      | other => other
      end
  end.

Definition mark_inaccessible_range (m : memory) (p : ContFramePool)
  (_base_frame_no _n_frames : Z) : outcome (memory * ContFramePool) :=
  let bound := wrap (_base_frame_no + _n_frames) in
  mark_inaccessible_loop (Z.to_nat (bound - _base_frame_no)) m p _base_frame_no.

(** ** release_frames *)

(** The inner [while (tBitmap[position] != 0xFF || tBitmap[position] != 0x77)]
    loop, with a budget of [fuel] iterations. *)
Fixpoint release_walk (fuel : nat) (tBitmap : Z) (m : memory)
  (position nFree : Z) : outcome (memory * Z) :=
  match fuel with
  | O => Running (m, nFree)
  | S fuel' =>
      if negb (m (tBitmap + position) =? FREE)
         || negb (m (tBitmap + position) =? HEAD)
      then release_walk fuel' tBitmap (store m (tBitmap + position) FREE)
                        (wrap (position + 1)) (wrap (nFree + 1))
      else Returns (m, nFree)
  end.

(** The test that picks the pool: [_first_frame_no >= baseFrame &&
    _first_frame_no <= baseFrame + numFrame]. *)
Definition release_selects (p : ContFramePool) (_first_frame_no : Z) : bool :=
  (base_frame_no p <=? _first_frame_no)
  && (_first_frame_no <=? wrap (base_frame_no p + nframes p)).

(** The outer [while (temp != NULL)] loop over the pool list. *)
Fixpoint release_search (fuel : nat) (m : memory) (temp : list ContFramePool)
  (_first_frame_no : Z) : outcome (memory * list ContFramePool) :=
  match temp with
  | [] => Returns (m, [])
  | p :: rest =>
      if release_selects p _first_frame_no then
        let position := wrap (_first_frame_no - base_frame_no p) in
        let m1 := store m (bitmap p + position) FREE in
        match release_walk fuel (bitmap p) m1 (wrap (position + 1))
                           (wrap (nFreeFrames p + 1)) with
        | Returns (m2, nFree) => Returns (m2, set_nFreeFrames p nFree :: rest)
        | Running (m2, nFree) => Running (m2, set_nFreeFrames p nFree :: rest)
        | Fatal => Fatal
        end
      else
        match release_search fuel m rest _first_frame_no with
        | Returns (m', rest') => Returns (m', p :: rest')
        | Running (m', rest') => Running (m', p :: rest')
        | Fatal => Fatal
        end
  end.

Definition release_frames (fuel : nat) (_first_frame_no : Z) (s : kernel)
  : outcome kernel :=
  match release_search fuel (mem s) (pool_head s) _first_frame_no with
  | Returns (m, ps) => Returns (mkKernel m ps)
  | Running (m, ps) => Running (mkKernel m ps)
  | Fatal => Fatal
  end.

(** ** The constructor and needed_info_frames

    [FRAME_SIZE] comes from the header, which is not part of the sources; it
    is a parameter here. *)
Section FrameSize.

Variable FRAME_SIZE : Z.

(** [for (i = 0; i < _n_frames; i++) bitmap[i] = 0xFF;] *)
Fixpoint fill_free (steps : nat) (bm : Z) (m : memory) (i : Z) : memory :=
  match steps with
  | O => m
  | S steps' => fill_free steps' bm (store m (bm + i) FREE) (wrap (i + 1))
  end.

(** [for (int i = cont_info; i <= cont_info + n_info_frames - 1; i++)
    { bitmap[i] = 0xFF; nFreeFrames--; }].  [i] is an [int]; the comparison
    is made on [unsigned long]. *)
Fixpoint info_loop (fuel : nat) (bm : Z) (m : memory) (nFree i bound : Z)
  : outcome (memory * Z) :=
  match fuel with
  | O => Running (m, nFree)
  | S fuel' =>
      if wrap i <=? bound
      then info_loop fuel' bm (store m (bm + i) FREE) (wrap (nFree - 1))
                     (to_int (i + 1)) bound
      else Returns (m, nFree)
  end.

Definition new_ContFramePool (fuel : nat)
  (_base_frame_no _n_frames _info_frame_no _n_info_frames : Z) (s : kernel)
  : outcome kernel :=
  if _n_frames <=? wrap (FRAME_SIZE * 8) then
    let bm :=
      if _info_frame_no =? 0 then wrap (_base_frame_no * FRAME_SIZE)
      else wrap (_info_frame_no * FRAME_SIZE) in
    let m1 := fill_free (Z.to_nat _n_frames) bm (mem s) 0 in
    let '(m2, nFree, cont_info) :=
      if _info_frame_no =? 0
      then (store m1 (bm + 0) OWN_FRAME, wrap (_n_frames - 1), 1)
      else (m1, _n_frames, _info_frame_no) in
    let this nFree :=
      mkPool _base_frame_no _n_frames nFree _info_frame_no _n_info_frames
             bm in
    match info_loop fuel bm m2 nFree (to_int cont_info)
                    (wrap (cont_info + _n_info_frames - 1)) with
    | Returns (m3, nFree') =>
        Returns (mkKernel m3 (pool_head s ++ [this nFree']))
    | Running (m3, nFree') =>
        Running (mkKernel m3 (pool_head s ++ [this nFree']))
    | Fatal => Fatal
    end
  else Fatal.

Definition needed_info_frames (_n_frames : Z) : Z :=
  let numberOfFrames := FRAME_SIZE in
  wrap (_n_frames / numberOfFrames
        + (if 0 <? _n_frames mod numberOfFrames then 1 else 0)).

End FrameSize.

(** ** A small running example *)

Definition blank : memory := fun _ => 0.
Definition boot : kernel := mkKernel blank [].

Definition result_of {A : Type} (d : A) (o : outcome A) : A :=
  match o with Returns a => a | Running a => a | Fatal => d end.

(** One pool of four frames starting at frame 512, its map in its own first
    frame. *)
Definition one_pool : kernel :=
  result_of boot (new_ContFramePool 4096 1 512 4 0 0 boot).

Definition pool0 (s : kernel) : ContFramePool :=
  default (mkPool 0 0 0 0 0 0) (pool_head s !! 0%nat).

Definition states (m : memory) (p : ContFramePool) : list Z :=
  map (fun i => m (bitmap p + Z.of_nat i)) (seq 0 (Z.to_nat (nframes p))).

(** ** Calls through a pool handle

    [get_frames] and [mark_inaccessible] are methods of a pool object; the
    same object is reached from [pool_head] by [release_frames].  A handle is
    the pool's position in the list. *)

Definition get_frames_at (k : nat) (_n_frames : Z) (s : kernel)
  : option (kernel * Z) :=
  match pool_head s !! k with
  | Some p =>
      let '(m', p', f) := get_frames (mem s) p _n_frames in
      Some (mkKernel m' (<[k := p']> (pool_head s)), f)
  | None => None
  end.

Definition lift_at (k : nat) (s : kernel)
  (o : outcome (memory * ContFramePool)) : outcome kernel :=
  match o with
  | Returns (m', p') => Returns (mkKernel m' (<[k := p']> (pool_head s)))
  | Running (m', p') => Running (mkKernel m' (<[k := p']> (pool_head s)))
  | Fatal => Fatal
  end.

Definition mark_inaccessible_at (k : nat) (_frame_no : Z) (s : kernel)
  : option (outcome kernel) :=
  match pool_head s !! k with
  | Some p => Some (lift_at k s (mark_inaccessible (mem s) p _frame_no))
  | None => None
  end.

Definition mark_inaccessible_range_at (k : nat) (_base_frame_no _n_frames : Z)
  (s : kernel) : option (outcome kernel) :=
  match pool_head s !! k with
  | Some p =>
      Some (lift_at k s
              (mark_inaccessible_range (mem s) p _base_frame_no _n_frames))
  | None => None
  end.

(** The state after [get_frames(2)] on the example pool. *)
Definition after_get2 : kernel :=
  match get_frames_at 0 2 one_pool with
  | Some (s, _) => s
  | None => one_pool
  end.

(** Two adjacent pools, frames 512..515 and 516..519, registered in that
    order. *)
Definition two_pools : kernel :=
  result_of one_pool (new_ContFramePool 4096 1 516 4 0 0 one_pool).

Definition pool1 (s : kernel) : ContFramePool :=
  default (mkPool 0 0 0 0 0 0) (pool_head s !! 1%nat).

(** A pool of four frames that starts at global frame 0 and keeps its map in
    frame 5, outside its own range. *)
Definition pool_at_zero : kernel :=
  result_of boot (new_ContFramePool 4096 1 0 4 5 0 boot).

(** The example pool after [get_frames(2)] and [mark_inaccessible(515)]. *)
Definition after_mark : kernel :=
  match mark_inaccessible_at 0 515 after_get2 with
  | Some (Returns s) => s
  | _ => after_get2
  end.

(** The example pool after [mark_inaccessible(513)], once and twice. *)
Definition marked_once : kernel :=
  match mark_inaccessible_at 0 513 one_pool with
  | Some (Returns s) => s
  | _ => one_pool
  end.

Definition marked_twice : kernel :=
  match mark_inaccessible_at 0 513 marked_once with
  | Some (Returns s) => s
  | _ => marked_once
  end.

(** The example pool built with one info frame to reserve. *)
Definition one_pool_with_info : kernel :=
  result_of boot (new_ContFramePool 4096 2 512 4 0 1 boot).

(** Two single-frame requests in a row on the example pool. *)
Definition first_single : memory * ContFramePool * Z :=
  get_frames (mem one_pool) (pool0 one_pool) 1.

Definition second_single : memory * ContFramePool * Z :=
  get_frames (fst (fst first_single)) (snd (fst first_single)) 1.


(** ** Vocabulary of the properties *)

(** The value is a 32-bit unsigned word. *)
Definition word (x : Z) : Prop := 0 <= x < modulus.

Definition well_typed (p : ContFramePool) : Prop :=
  word (base_frame_no p) /\ word (nframes p) /\ word (nFreeFrames p).

(** Frames at offsets [off, off + n) of the pool are all FREE. *)
Definition all_free (m : memory) (p : ContFramePool) (off n : Z) : Prop :=
  forall j, off <= j < off + n -> m (bitmap p + j) = FREE.

(** [off] starts the first run of [n] FREE frames that the scan of
    [get_frames] meets: the run lies inside the scanned offsets
    [0, nframes - 1) and no smaller offset starts such a run. *)
Definition first_fit (m : memory) (p : ContFramePool) (n off : Z) : Prop :=
  0 <= off /\ off + n <= wrap (nframes p - 1) /\
  all_free m p off n /\
  forall o, 0 <= o < off -> ~ all_free m p o n.

(** [m'] is [m] with the run of [n] frames at offset [off] marked: its
    first frame HEAD, the rest ALLOCATED, every other byte as in [m]. *)
Definition marks_run (m : memory) (p : ContFramePool) (n off : Z)
  (m' : memory) : Prop :=
  m' (bitmap p + off) = HEAD /\
  (forall j, off < j < off + n -> m' (bitmap p + j) = ALLOCATED) /\
  (forall a, ~ (bitmap p + off <= a < bitmap p + off + n) -> m' a = m a).

(** What is known when the scan of [get_frames] is about to look at offset
    [i]: the last [counter] frames are FREE and start at [frame_head], the
    frame before them is not, and no run of [n] fits below [i]. *)
Definition scan_inv (m : memory) (p : ContFramePool) (n : Z)
  (i frame_head counter : Z) : Prop :=
  0 <= counter <= i /\ counter < n /\
  (0 < counter -> frame_head = i - counter) /\
  all_free m p (i - counter) counter /\
  (i - counter = 0 \/ m (bitmap p + (i - counter - 1)) <> FREE) /\
  (forall o, 0 <= o -> o + n <= i -> ~ all_free m p o n).

(** Number of FREE bytes among the [k] bytes from address [a]. *)
Fixpoint count_free_from (k : nat) (m : memory) (a : Z) : Z :=
  match k with
  | O => 0
  | S k' => (if m a =? FREE then 1 else 0) + count_free_from k' m (a + 1)
  end.

(** Number of frames of the pool whose stored state is FREE. *)
Definition count_free (m : memory) (p : ContFramePool) : Z :=
  count_free_from (Z.to_nat (nframes p)) m (bitmap p).

(** The state bytes of two pools do not overlap. *)
Definition apart (p q : ContFramePool) : Prop :=
  bitmap p + nframes p <= bitmap q \/ bitmap q + nframes q <= bitmap p.

(** The cached counter of [p] agrees with its state bytes in [m]. *)
Definition counted (m : memory) (p : ContFramePool) : Prop :=
  nFreeFrames p = count_free m p.

(** [p'] is [p] up to its free counter. *)
Definition same_frames (p p' : ContFramePool) : Prop :=
  base_frame_no p' = base_frame_no p /\ nframes p' = nframes p /\
  bitmap p' = bitmap p.

(** [m'] differs from [m] at most on the state bytes of [p]. *)
Definition writes_within (p : ContFramePool) (m m' : memory) : Prop :=
  forall a, ~ (bitmap p <= a < bitmap p + nframes p) -> m' a = m a.

(** The invariant of the pool list: every counter is right, the frame range
    of every pool is made of words, and no two pools share state bytes. *)
Definition kernel_inv (s : kernel) : Prop :=
  (forall k p, pool_head s !! k = Some p ->
     counted (mem s) p /\ word (base_frame_no p) /\ word (nframes p)) /\
  (forall j k p q, j <> k ->
     pool_head s !! j = Some p -> pool_head s !! k = Some q -> apart p q).

(** ** Call sequences *)

Inductive call : Type :=
| Construct (_base_frame_no _n_frames _info_frame_no _n_info_frames : Z)
| GetFrames (k : nat) (_n_frames : Z)
| MarkInaccessible (k : nat) (_frame_no : Z)
| MarkInaccessibleRange (k : nat) (_base_frame_no _n_frames : Z)
| Release (_first_frame_no : Z).

Section Calls.

Variable FRAME_SIZE : Z.

(** [step s c s']: the call [c], started in [s], returns in [s']. *)
Inductive step : kernel -> call -> kernel -> Prop :=
| step_construct fuel b n i ni s s' :
    new_ContFramePool FRAME_SIZE fuel b n i ni s = Returns s' ->
    step s (Construct b n i ni) s'
| step_get_frames k n s s' f :
    get_frames_at k n s = Some (s', f) ->
    step s (GetFrames k n) s'
| step_mark k f s s' :
    mark_inaccessible_at k f s = Some (Returns s') ->
    step s (MarkInaccessible k f) s'
| step_mark_range k b n s s' :
    mark_inaccessible_range_at k b n s = Some (Returns s') ->
    step s (MarkInaccessibleRange k b n) s'
| step_release fuel f s s' :
    release_frames fuel f s = Returns s' ->
    step s (Release f) s'.

(** States reached from an empty pool list by calls that the policy [ok]
    lets through. *)
Inductive reachable (ok : kernel -> call -> Prop) : kernel -> Prop :=
| reach_boot m : reachable ok (mkKernel m [])
| reach_step s c s' :
    reachable ok s -> ok s c -> step s c s' -> reachable ok s'.

Definition any_call (s : kernel) (c : call) : Prop := True.

(** The frame [f] of pool [p] is FREE in [m]. *)
Definition frame_is_free (m : memory) (p : ContFramePool) (f : Z) : Prop :=
  m (bitmap p + wrap (f - base_frame_no p)) = FREE.

(** The callers' side of the contract: a pool is built over at least one
    frame, with no separate info frames to reserve and with state bytes that
    no other pool uses; [get_frames] asks for at least one frame;
    [mark_inaccessible] is applied to frames that are FREE. *)
Definition disciplined (s : kernel) (c : call) : Prop :=
  match c with
  | Construct b n i ni =>
      ni = 0 /\ 1 <= n /\ word b /\ word i /\
      let bm := wrap ((if i =? 0 then b else i) * FRAME_SIZE) in
      forall q, q ∈ pool_head s ->
        bm + n <= bitmap q \/ bitmap q + nframes q <= bm
  | GetFrames k n => 1 <= n
  | MarkInaccessible k f =>
      forall p, pool_head s !! k = Some p -> frame_is_free (mem s) p f
  | MarkInaccessibleRange k b n =>
      forall p, pool_head s !! k = Some p ->
        forall f, b <= f < wrap (b + n) -> frame_is_free (mem s) p f
  | Release f => True
  end.

End Calls.

(** * Properties *)

(** ** Words *)

Lemma modulus_eq : modulus = 4294967296.
Proof. reflexivity. Qed.

Lemma wrap_small x : word x -> wrap x = x.
Proof. unfold word, wrap. intros H. apply Z.mod_small. exact H. Qed.

Lemma wrap_word x : word (wrap x).
Proof. unfold word, wrap. apply Z.mod_pos_bound. reflexivity. Qed.

Lemma store_same m a v : store m a v a = v.
Proof. unfold store. rewrite Z.eqb_refl. reflexivity. Qed.

Lemma store_other m a v a' : a' <> a -> store m a v a' = m a'.
Proof. unfold store. intros H. apply Z.eqb_neq in H. rewrite H. reflexivity. Qed.

(** ** release_frames: the walk has no exit *)

(** Every byte differs from 0xFF or from 0x77: the loop test always holds. *)
Lemma walk_test_true x : negb (x =? FREE) || negb (x =? HEAD) = true.
Proof.
  destruct (x =? FREE) eqn:E; simpl; [|reflexivity].
  apply Z.eqb_eq in E. subst x. reflexivity.
Qed.

Lemma release_walk_running fuel : forall tBitmap m position nFree,
  exists m' nFree',
    release_walk fuel tBitmap m position nFree = Running (m', nFree').
Proof.
  induction fuel as [|fuel IH]; intros; simpl.
  - eauto.
  - rewrite walk_test_true. apply IH.
Qed.

(** While the position does not wrap, [fuel] iterations leave the FREE byte
    in the [fuel] positions from the starting one and touch nothing else. *)
Lemma release_walk_overwrites fuel : forall tBitmap m position nFree,
  0 <= position -> position + Z.of_nat fuel <= modulus ->
  exists m' nFree',
    release_walk fuel tBitmap m position nFree = Running (m', nFree') /\
    (forall a, tBitmap + position <= a < tBitmap + position + Z.of_nat fuel ->
       m' a = FREE) /\
    (forall a,
       ~ (tBitmap + position <= a < tBitmap + position + Z.of_nat fuel) ->
       m' a = m a).
Proof.
  induction fuel as [|fuel IH]; intros bm m pos nf Hpos Hfit.
  - exists m, nf. split; [reflexivity|]. split; [intros a Ha; lia|reflexivity].
  - cbn [release_walk]. rewrite walk_test_true.
    destruct fuel as [|fuel].
    + exists (store m (bm + pos) FREE), (wrap (nf + 1)).
      split; [reflexivity|]. split.
      * intros a Ha. assert (a = bm + pos) as -> by lia. apply store_same.
      * intros a Ha. apply store_other. lia.
    + assert (Hw : wrap (pos + 1) = pos + 1)
        by (apply wrap_small; unfold word; lia).
      rewrite Hw.
      destruct (IH bm (store m (bm + pos) FREE) (pos + 1) (wrap (nf + 1)))
        as (m' & nf' & E & Hin & Hout); try lia.
      exists m', nf'. split; [exact E|]. split.
      * intros a Ha. destruct (Z.eq_dec a (bm + pos)) as [->|Hne].
        -- rewrite Hout by lia. apply store_same.
        -- apply Hin. lia.
      * intros a Ha. rewrite Hout by lia. apply store_other. lia.
Qed.

Lemma release_search_owner fuel m f : forall ps,
  Exists (fun p => release_selects p f = true) ps ->
  exists m' ps', release_search fuel m ps f = Running (m', ps').
Proof.
  induction ps as [|p ps IH]; intros Hex.
  - inversion Hex.
  - simpl. destruct (release_selects p f) eqn:Esel.
    + destruct (release_walk_running fuel (bitmap p)
                  (store m (bitmap p + wrap (f - base_frame_no p)) FREE)
                  (wrap (wrap (f - base_frame_no p) + 1))
                  (wrap (nFreeFrames p + 1))) as (m' & nf & ->).
      eauto.
    + inversion Hex as [? ? Hp | ? ? Hps]; subst; [congruence|].
      destruct (IH Hps) as (m' & ps' & ->). eauto.
Qed.

Lemma release_search_no_owner fuel m f : forall ps,
  Forall (fun p => release_selects p f = false) ps ->
  release_search fuel m ps f = Returns (m, ps).
Proof.
  induction ps as [|p ps IH]; intros Hall; [reflexivity|].
  inversion Hall; subst. simpl.
  replace (release_selects p f) with false by congruence.
  rewrite IH by assumption. reflexivity.
Qed.

Lemma release_search_not_fatal fuel m f : forall ps,
  release_search fuel m ps f <> Fatal.
Proof.
  induction ps as [|p ps IH]; simpl; [discriminate|].
  destruct (release_selects p f).
  - destruct (release_walk_running fuel (bitmap p)
                (store m (bitmap p + wrap (f - base_frame_no p)) FREE)
                (wrap (wrap (f - base_frame_no p) + 1))
                (wrap (nFreeFrames p + 1))) as (m' & nf & ->).
    discriminate.
  - destruct (release_search fuel m ps f) as [[? ?]| |[? ?]];
      [discriminate|contradiction|discriminate].
Qed.

(** A return of the search leaves everything as it was, and happens only when
    no pool was selected. *)
Lemma release_search_returns fuel m f : forall ps m' ps',
  release_search fuel m ps f = Returns (m', ps') ->
  m' = m /\ ps' = ps /\ Forall (fun p => release_selects p f = false) ps.
Proof.
  induction ps as [|p ps IH]; simpl; intros m' ps' H.
  - inversion H; subst. auto.
  - destruct (release_selects p f) eqn:Esel.
    + destruct (release_walk_running fuel (bitmap p)
                  (store m (bitmap p + wrap (f - base_frame_no p)) FREE)
                  (wrap (wrap (f - base_frame_no p) + 1))
                  (wrap (nFreeFrames p + 1))) as (m1 & nf & E).
      rewrite E in H. discriminate.
    + destruct (release_search fuel m ps f) as [[m1 ps1]| |[m1 ps1]] eqn:E;
        try discriminate.
      inversion H; subst. destruct (IH _ _ eq_refl) as (-> & -> & Hall).
      auto.
Qed.

Lemma release_frames_returns fuel f s s' :
  release_frames fuel f s = Returns s' -> s' = s.
Proof.
  unfold release_frames. intros H.
  destruct (release_search fuel (mem s) (pool_head s) f)
    as [[m ps]| |[m ps]] eqn:E; try discriminate.
  inversion H; subst. apply release_search_returns in E as (-> & -> & _).
  destruct s; reflexivity.
Qed.

Lemma release_frames_not_fatal fuel f s : release_frames fuel f s <> Fatal.
Proof.
  unfold release_frames.
  pose proof (release_search_not_fatal fuel (mem s) f (pool_head s)) as H.
  destruct (release_search fuel (mem s) (pool_head s) f) as [[? ?]| |[? ?]];
    [discriminate|contradiction|discriminate].
Qed.

Lemma release_frames_owner fuel f s :
  Exists (fun p => release_selects p f = true) (pool_head s) ->
  exists s', release_frames fuel f s = Running s'.
Proof.
  intros H. unfold release_frames.
  destruct (release_search_owner fuel (mem s) f _ H) as (m' & ps' & ->).
  eauto.
Qed.

(** ** needed_info_frames *)

Lemma ceiling_quotient F n :
  0 < F -> 0 <= n ->
  n / F + (if 0 <? n mod F then 1 else 0) = (n + F - 1) / F.
Proof.
  intros HF Hn.
  pose proof (Z.div_mod n F ltac:(lia)) as Hdm.
  pose proof (Z.mod_pos_bound n F HF) as Hr.
  destruct (0 <? n mod F) eqn:E.
  - apply Z.ltb_lt in E.
    apply Z.div_unique with (r := n mod F - 1); lia.
  - apply Z.ltb_ge in E.
    apply Z.div_unique with (r := F - 1); lia.
Qed.

(** C9: needed_info_frames is the ceiling of n / FRAME_SIZE: it equals
    (n + FRAME_SIZE - 1) / FRAME_SIZE, the least count whose frames hold n
    state bytes, and it is a function of its argument alone. *)
Theorem needed_info_frames_is_ceiling (FRAME_SIZE n : Z) :
  0 < FRAME_SIZE -> word n ->
  needed_info_frames FRAME_SIZE n = (n + FRAME_SIZE - 1) / FRAME_SIZE /\
  FRAME_SIZE * (needed_info_frames FRAME_SIZE n - 1) < n
    <= FRAME_SIZE * needed_info_frames FRAME_SIZE n.
Proof.
  intros HF [Hn0 Hn]. unfold needed_info_frames.
  pose proof (Z.div_mod n FRAME_SIZE ltac:(lia)) as Hdm.
  pose proof (Z.mod_pos_bound n FRAME_SIZE HF) as Hr.
  assert (Hq : 0 <= n / FRAME_SIZE) by (apply Z.div_pos; lia).
  assert (Hw : wrap (n / FRAME_SIZE
                     + (if 0 <? n mod FRAME_SIZE then 1 else 0))
               = n / FRAME_SIZE + (if 0 <? n mod FRAME_SIZE then 1 else 0)).
  { apply wrap_small. unfold word.
    destruct (0 <? n mod FRAME_SIZE) eqn:E.
    - apply Z.ltb_lt in E. nia.
    - nia. }
  rewrite Hw. split.
  - apply ceiling_quotient; lia.
  - destruct (0 <? n mod FRAME_SIZE) eqn:E.
    + apply Z.ltb_lt in E. nia.
    + apply Z.ltb_ge in E. nia.
Qed.

Lemma needed_info_frames_is_ceiling_witness :
  needed_info_frames 4096 4097 = (4097 + 4096 - 1) / 4096 /\
  4096 * (needed_info_frames 4096 4097 - 1) < 4097
    <= 4096 * needed_info_frames 4096 4097.
Proof.
  apply (needed_info_frames_is_ceiling 4096 4097).
  - lia.
  - unfold word. rewrite modulus_eq. lia.
Defined.

(** ** The example pool, call by call *)

(** C1 (the code departs from the claim): after get_frames(2) the example
    pool holds own-frame, HEAD, ALLOCATED, FREE.  release_frames(513) does not
    stop at the FREE frame at offset 3: whatever the budget, the walk is still
    running, and by its third iteration it has overwritten the byte past the
    pool's last frame and counted five free frames in a pool of four. *)
Theorem release_walk_overruns_pool :
  states (mem after_get2) (pool0 after_get2)
    = [OWN_FRAME; HEAD; ALLOCATED; FREE] /\
  (forall fuel, exists s', release_frames fuel 513 after_get2 = Running s') /\
  exists s', release_frames 3 513 after_get2 = Running s' /\
    nframes (pool0 s') = 4 /\
    mem after_get2 (bitmap (pool0 after_get2) + 4) = 0 /\
    mem s' (bitmap (pool0 s') + 4) = FREE /\
    nFreeFrames (pool0 s') = 5.
Proof.
  split; [reflexivity|]. split.
  - intros fuel. apply release_frames_owner.
    apply Exists_cons_hd. reflexivity.
  - eexists. split; [reflexivity|]. repeat split; reflexivity.
Qed.

(** C4 (the code departs from the claim): get_frames(0) on the freshly built
    example pool does not return 0.  The scan meets the pool's own frame, finds
    counter = 0 = _n_frames, marks that frame HEAD, takes one off the free
    count and returns frame 512. *)
Theorem get_frames_zero_allocates :
  states (mem one_pool) (pool0 one_pool) = [OWN_FRAME; FREE; FREE; FREE] /\
  nFreeFrames (pool0 one_pool) = 3 /\
  exists m' p',
    get_frames (mem one_pool) (pool0 one_pool) 0 = (m', p', 512) /\
    states m' p' = [HEAD; FREE; FREE; FREE] /\
    nFreeFrames p' = 2.
Proof.
  split; [reflexivity|]. split; [reflexivity|].
  eexists _, _. split; [reflexivity|]. split; reflexivity.
Qed.

(** C5 (the code departs from the claim): in the example pool the frames at
    offsets 1, 2, 3 are FREE, a run of three that ends at the pool's last
    frame, and the free count is 3; get_frames(3) returns 0 and changes
    nothing, because the scan stops before offset 3. *)
Theorem get_frames_misses_last_frame :
  nframes (pool0 one_pool) = 4 /\
  nFreeFrames (pool0 one_pool) = 3 /\
  all_free (mem one_pool) (pool0 one_pool) 1 3 /\
  get_frames (mem one_pool) (pool0 one_pool) 3
    = (mem one_pool, pool0 one_pool, 0).
Proof.
  split; [reflexivity|]. split; [reflexivity|]. split.
  - intros j Hj.
    assert (j = 1 \/ j = 2 \/ j = 3) as [->|[->| ->]] by lia; reflexivity.
  - reflexivity.
Qed.

(** C6 (the code departs from the claim): release_frames(100), a frame no
    pool contains, returns with the state untouched instead of failing; and a
    release of the FREE frame 515 or of the ALLOCATED interior frame 514 is not
    stopped by any check either. *)
Theorem release_foreign_frame_returns_silently :
  (forall fuel, release_frames fuel 100 one_pool = Returns one_pool) /\
  (forall fuel, release_frames fuel 515 one_pool <> Fatal) /\
  (forall fuel, release_frames fuel 514 after_get2 <> Fatal).
Proof.
  split; [intros fuel; reflexivity|].
  split; intros fuel; apply release_frames_not_fatal.
Qed.

(** C7 (the code departs from the claim): get_frames(2) on the example pool
    succeeds with frame 513, the free count going from 3 to 1; the release of
    513 that follows never returns, and after two iterations of its walk the
    free count already stands at 4. *)
Theorem release_after_get_frames_never_returns :
  nFreeFrames (pool0 one_pool) = 3 /\
  get_frames_at 0 2 one_pool = Some (after_get2, 513) /\
  (forall fuel s', release_frames fuel 513 after_get2 <> Returns s') /\
  exists s', release_frames 2 513 after_get2 = Running s' /\
    nFreeFrames (pool0 s') = 4.
Proof.
  split; [reflexivity|]. split; [reflexivity|]. split.
  - intros fuel s' H.
    destruct (release_frames_owner fuel 513 after_get2) as (s1 & E).
    + apply Exists_cons_hd. reflexivity.
    + congruence.
  - eexists. split; reflexivity.
Qed.

(** The walk started by a release in the first pool's own range runs on into
    the state bytes of the second pool, 4 * 4096 bytes further up: its byte
    for its own frame is overwritten with FREE. *)
Lemma release_walk_reaches_next_pool :
  release_selects (pool0 two_pools) 513 = true /\
  mem two_pools (bitmap (pool1 two_pools)) = OWN_FRAME /\
  exists s', release_frames (Z.to_nat 16383) 513 two_pools = Running s' /\
    mem s' (bitmap (pool1 two_pools)) = FREE.
Proof.
  split; [reflexivity|]. split; [reflexivity|].
  unfold release_frames.
  change (pool_head two_pools)
    with [mkPool 512 4 3 0 0 2097152; mkPool 516 4 3 0 0 2113536].
  change (bitmap (pool1 two_pools)) with 2113536.
  cbn [release_search].
  change (release_selects (mkPool 512 4 3 0 0 2097152) 513) with true.
  cbv iota. cbn [bitmap base_frame_no nFreeFrames].
  change (wrap (513 - 512)) with 1.
  change (wrap (1 + 1)) with 2.
  destruct (release_walk_overwrites (Z.to_nat 16383) 2097152
              (store (mem two_pools) (2097152 + 1) FREE) 2 (wrap (3 + 1)))
    as (m' & nf & E & Hin & _); [lia|rewrite modulus_eq; lia|].
  rewrite E. eexists. split; [reflexivity|].
  cbn [mem]. apply Hin. lia.
Qed.

(** C8 (the code departs from the claim): with pool B over frames 512..515
    registered before pool A over frames 516..519, frame 516 lies in A's range
    and outside B's, yet the test of release_frames selects B (its upper bound
    is inclusive): B's free count goes from 3 to 4 before the walk starts, a
    byte past B's state bytes is overwritten, and A is not touched. *)
Theorem release_mutates_neighbour_pool :
  let B := pool0 two_pools in
  let A := pool1 two_pools in
  base_frame_no A <= 516 < base_frame_no A + nframes A /\
  ~ (base_frame_no B <= 516 < base_frame_no B + nframes B) /\
  release_selects B 516 = true /\
  nFreeFrames B = 3 /\
  exists s', release_frames 0 516 two_pools = Running s' /\
    nFreeFrames (pool0 s') = 4 /\
    mem s' (bitmap B + nframes B) = FREE /\
    pool1 s' = A.
Proof.
  cbv zeta. split; [vm_compute; split; [discriminate|reflexivity]|].
  split; [vm_compute; intros [_ H]; discriminate H|].
  split; [reflexivity|]. split; [reflexivity|].
  eexists. split; [reflexivity|]. repeat split; reflexivity.
Qed.

(** ** get_frames: what the scan finds and what it writes *)

Lemma mark_allocated_spec k : forall bm m h nFree,
  0 <= h -> h + Z.of_nat k < modulus ->
  Z.of_nat k <= nFree < modulus ->
  exists m',
    mark_allocated k bm m h nFree = (m', nFree - Z.of_nat k) /\
    (forall a, bm + h < a <= bm + h + Z.of_nat k -> m' a = ALLOCATED) /\
    (forall a, ~ (bm + h < a <= bm + h + Z.of_nat k) -> m' a = m a).
Proof.
  induction k as [|k IH]; intros bm m h nFree Hh Hk Hnf.
  - exists m. simpl. rewrite Z.sub_0_r. split; [reflexivity|]. split; [lia|reflexivity].
  - cbn [mark_allocated].
    assert (Hw : wrap (h + 1) = h + 1) by (apply wrap_small; unfold word; lia).
    assert (Hw' : wrap (nFree - 1) = nFree - 1)
      by (apply wrap_small; unfold word; lia).
    rewrite Hw, Hw'.
    destruct (IH bm (store m (bm + (h + 1)) ALLOCATED) (h + 1) (nFree - 1))
      as (m' & E & Hin & Hout); try lia.
    exists m'. split; [rewrite E; f_equal; lia|]. split.
    + intros a Ha. destruct (Z.eq_dec a (bm + (h + 1))) as [->|Hne].
      * rewrite Hout by lia. apply store_same.
      * apply Hin. lia.
    + intros a Ha. rewrite Hout by lia. apply store_other. lia.
Qed.

Section Scan.

Variables (m : memory) (p : ContFramePool) (n : Z).
Hypothesis Hn : 1 <= n.
Hypothesis HnFree : n <= nFreeFrames p < modulus.

Lemma scan_spec steps : forall i frame_head counter,
  scan_inv m p n i frame_head counter ->
  i + Z.of_nat steps < modulus ->
  (scan steps m p n i frame_head counter = (m, p, 0) /\
   forall o, 0 <= o -> o + n <= i + Z.of_nat steps -> ~ all_free m p o n)
  \/
  exists off m',
    scan steps m p n i frame_head counter
      = (m', set_nFreeFrames p (nFreeFrames p - n),
         wrap (base_frame_no p + off)) /\
    0 <= off /\ off + n <= i + Z.of_nat steps /\
    all_free m p off n /\
    (forall o, 0 <= o < off -> ~ all_free m p o n) /\
    marks_run m p n off m'.
Proof.
  induction steps as [|steps IH];
    intros i h c (Hc & Hcn & Hh & Hrun & Hleft & Hnone) Hi.
  - left. split; [reflexivity|].
    intros o Ho Hon. apply Hnone; lia.
  - cbn [scan].
    assert (Hwi : wrap (i + 1) = i + 1)
      by (apply wrap_small; unfold word; lia).
    destruct (m (bitmap p + i) =? FREE) eqn:Ei.
    + apply Z.eqb_eq in Ei.
      assert (Hwc : wrap (c + 1) = c + 1)
        by (apply wrap_small; unfold word; lia).
      rewrite Hwc.
      assert (Hh' : (if c =? 0 then i else h) = i - c).
      { destruct (c =? 0) eqn:Ec.
        - apply Z.eqb_eq in Ec. lia.
        - apply Z.eqb_neq in Ec. apply Hh. lia. }
      rewrite Hh'.
      assert (Hrun' : all_free m p (i - c) (c + 1)).
      { intros j Hj. destruct (Z.eq_dec j i) as [->|Hne]; [exact Ei|].
        apply Hrun. lia. }
      destruct (c + 1 =? n) eqn:Efound.
      * apply Z.eqb_eq in Efound. right.
        assert (Hw1 : wrap (nFreeFrames p - 1) = nFreeFrames p - 1)
          by (apply wrap_small; unfold word; lia).
        rewrite Hw1.
        destruct (mark_allocated_spec (Z.to_nat (c + 1 - 1)) (bitmap p)
                    (store m (bitmap p + (i - c)) HEAD) (i - c)
                    (nFreeFrames p - 1))
          as (m' & E & Hin & Hout); try lia.
        rewrite E. exists (i - c), m'.
        replace (wrap (wrap (base_frame_no p) + (i - c)))
          with (wrap (base_frame_no p + (i - c)))
          by (unfold wrap; symmetry; apply Zplus_mod_idemp_l).
        split; [do 2 f_equal; f_equal; lia|].
        split; [lia|]. split; [lia|].
        split; [rewrite <- Efound; exact Hrun'|].
        split; [intros o Ho; apply Hnone; lia|].
        split; [|split].
        -- rewrite Hout by lia. apply store_same.
        -- intros j Hj. apply Hin. lia.
        -- intros a Ha. rewrite Hout by lia. apply store_other. lia.
      * apply Z.eqb_neq in Efound. rewrite Hwi.
        destruct (IH (i + 1) (i - c) (c + 1)) as [[E Hno]|Hyes].
        -- unfold scan_inv.
           replace (i + 1 - (c + 1)) with (i - c) by lia.
           split; [lia|]. split; [lia|]. split; [lia|].
           split; [exact Hrun'|]. split; [exact Hleft|].
           intros o Ho Hon Hall.
           destruct (Z_le_gt_dec (o + n) i) as [Hle|Hgt];
             [exact (Hnone o Ho Hle Hall)|].
           destruct Hleft as [H0|Hbusy]; [lia|].
           apply Hbusy. apply Hall. lia.
        -- lia.
        -- left. split; [exact E|].
           intros o Ho Hon. apply Hno; lia.
        -- right. destruct Hyes as (off & m' & E & H0 & Hle & Hrest).
           exists off, m'. split; [exact E|]. split; [exact H0|].
           split; [lia|exact Hrest].
    + apply Z.eqb_neq in Ei.
      assert (E0 : (0 =? n) = false) by (apply Z.eqb_neq; lia).
      rewrite E0, Hwi.
      destruct (IH (i + 1) h 0) as [[E Hno]|Hyes].
      * unfold scan_inv. rewrite Z.sub_0_r.
        split; [lia|]. split; [lia|]. split; [lia|].
        split; [intros j Hj; lia|]. split.
        -- right. replace (i + 1 - 1) with i by lia. exact Ei.
        -- intros o Ho Hon Hall.
           destruct (Z_le_gt_dec (o + n) i) as [Hle|Hgt];
             [exact (Hnone o Ho Hle Hall)|].
           apply Ei. apply Hall. lia.
      * lia.
      * left. split; [exact E|].
        intros o Ho Hon. apply Hno; lia.
      * right. destruct Hyes as (off & m' & E & H0 & Hle & Hrest).
        exists off, m'. split; [exact E|]. split; [exact H0|].
        split; [lia|exact Hrest].
Qed.

End Scan.

Lemma get_frames_spec m p n :
  1 <= n -> word (nFreeFrames p) ->
  (get_frames m p n = (m, p, 0) /\
   (nFreeFrames p < n \/
    forall o, 0 <= o -> o + n <= wrap (nframes p - 1) -> ~ all_free m p o n))
  \/
  exists off m',
    get_frames m p n
      = (m', set_nFreeFrames p (nFreeFrames p - n),
         wrap (base_frame_no p + off)) /\
    n <= nFreeFrames p /\
    first_fit m p n off /\
    marks_run m p n off m'.
Proof.
  intros Hn [Hf0 Hf]. unfold get_frames.
  destruct ((nFreeFrames p =? 0) || (nFreeFrames p <? n)) eqn:Eguard.
  - left. split; [reflexivity|]. left.
    apply orb_true_iff in Eguard as [E|E];
      [apply Z.eqb_eq in E|apply Z.ltb_lt in E]; lia.
  - apply orb_false_iff in Eguard as [_ E]. apply Z.ltb_ge in E.
    pose proof (wrap_word (nframes p - 1)) as [Hs0 Hs].
    destruct (scan_spec m p n Hn (conj E Hf)
                (Z.to_nat (wrap (nframes p - 1))) 0 0 0)
      as [[Escan Hno]|(off & m' & Escan & H0 & Hle & Hrun & Hfirst & Hm')].
    + unfold scan_inv. rewrite Z.sub_0_r.
      split; [lia|]. split; [lia|]. split; [lia|].
      split; [intros j Hj; lia|]. split; [left; reflexivity|].
      intros o Ho Hon. lia.
    + lia.
    + left. split; [exact Escan|]. right.
      intros o Ho Hon. apply Hno; lia.
    + right. exists off, m'. split; [exact Escan|]. split; [exact E|].
      split; [|exact Hm'].
      unfold first_fit. split; [exact H0|]. split; [lia|].
      split; assumption.
Qed.

(** The parts of the failure rule that hold for a request of at least one
    frame: too few free frames, or no run inside the scanned offsets. *)
Lemma get_frames_too_few m p n :
  1 <= n -> nFreeFrames p < n -> get_frames m p n = (m, p, 0).
Proof.
  intros Hn Hlt. unfold get_frames.
  replace (nFreeFrames p <? n) with true by (symmetry; apply Z.ltb_lt; lia).
  rewrite orb_true_r. reflexivity.
Qed.

Lemma get_frames_no_run m p n :
  1 <= n -> word (nFreeFrames p) ->
  (forall o, 0 <= o -> ~ all_free m p o n) ->
  get_frames m p n = (m, p, 0).
Proof.
  intros Hn Hw Hno.
  destruct (get_frames_spec m p n Hn Hw)
    as [[E _]|(off & m' & _ & _ & (H0 & _ & Hrun & _) & _)];
    [exact E|].
  exfalso. exact (Hno off H0 Hrun).
Qed.

(** C3: a get_frames(n) with n >= 1 that returns a nonzero f has found the
    first run of n FREE frames of its left-to-right scan, at some offset off:
    f is base_frame_no + off (as an unsigned word, and as a plain sum when the
    pool's frame numbers fit a word), so off is f - base_frame_no; in the new
    memory the frame at off is HEAD and the n - 1 after it are ALLOCATED, no
    other byte has changed, and the pool is the old one with nFreeFrames
    lowered by exactly n. *)
Theorem get_frames_success (m : memory) (p : ContFramePool) (n : Z)
  (m' : memory) (p' : ContFramePool) (f : Z) :
  well_typed p -> 1 <= n ->
  get_frames m p n = (m', p', f) -> f <> 0 ->
  exists off,
    first_fit m p n off /\
    f = wrap (base_frame_no p + off) /\
    wrap (f - base_frame_no p) = off /\
    (1 <= nframes p -> base_frame_no p + nframes p <= modulus ->
     f = base_frame_no p + off) /\
    marks_run m p n off m' /\
    p' = set_nFreeFrames p (nFreeFrames p - n) /\
    nFreeFrames p' = nFreeFrames p - n.
Proof.
  intros (Hb & Hnf & Hfree) Hn Hget Hf.
  destruct (get_frames_spec m p n Hn Hfree)
    as [[E _]|(off & m1 & E & Hge & Hfit & Hmarks)].
  - rewrite E in Hget. inversion Hget; subst. contradiction.
  - rewrite E in Hget. inversion Hget; subst. clear Hget.
    exists off. split; [exact Hfit|]. split; [reflexivity|].
    destruct Hfit as (H0 & Hle & _).
    pose proof (wrap_word (nframes p - 1)) as Hs.
    unfold word in *. split; [|split].
    + unfold wrap in *. rewrite Zminus_mod_idemp_l.
      replace (base_frame_no p + off - base_frame_no p) with off by lia.
      apply Z.mod_small. lia.
    + intros H1 Hfit. apply wrap_small. unfold word.
      rewrite (wrap_small (nframes p - 1)) in Hle by (unfold word; lia). lia.
    + split; [exact Hmarks|]. split; reflexivity.
Qed.

Lemma get_frames_success_witness :
  exists off,
    first_fit (mem one_pool) (pool0 one_pool) 2 off /\
    513 = wrap (base_frame_no (pool0 one_pool) + off) /\
    wrap (513 - base_frame_no (pool0 one_pool)) = off /\
    (1 <= nframes (pool0 one_pool) ->
     base_frame_no (pool0 one_pool) + nframes (pool0 one_pool) <= modulus ->
     513 = base_frame_no (pool0 one_pool) + off) /\
    marks_run (mem one_pool) (pool0 one_pool) 2 off (mem after_get2) /\
    pool0 after_get2
      = set_nFreeFrames (pool0 one_pool) (nFreeFrames (pool0 one_pool) - 2) /\
    nFreeFrames (pool0 after_get2) = nFreeFrames (pool0 one_pool) - 2.
Proof.
  apply (get_frames_success (mem one_pool) (pool0 one_pool) 2
           (mem after_get2) (pool0 after_get2) 513).
  - vm_compute. repeat split; discriminate.
  - lia.
  - reflexivity.
  - discriminate.
Defined.

(** C10, as the code has it: for a pool of at least one frame whose frame
    numbers lie in [1, 2^32), a get_frames(n) with n >= 1 that returns 0 has
    left memory and the pool exactly as they were. *)
Theorem get_frames_failure_is_atomic (m : memory) (p : ContFramePool) (n : Z)
  (m' : memory) (p' : ContFramePool) :
  well_typed p ->
  1 <= nframes p -> 0 < base_frame_no p ->
  base_frame_no p + nframes p <= modulus ->
  1 <= n ->
  get_frames m p n = (m', p', 0) ->
  m' = m /\ p' = p.
Proof.
  intros (Hb & Hnf & Hfree) H1 Hbase Hfit Hn Hget.
  destruct (get_frames_spec m p n Hn Hfree)
    as [[E _]|(off & m1 & E & Hge & (H0 & Hle & _) & _)].
  - rewrite E in Hget. inversion Hget; subst. split; reflexivity.
  - rewrite E in Hget. inversion Hget as [[Hm Hp Hzero]]. exfalso.
    unfold word in *.
    rewrite (wrap_small (nframes p - 1)) in Hle by (unfold word; lia).
    rewrite wrap_small in Hzero by (unfold word; lia). lia.
Qed.

Lemma get_frames_failure_is_atomic_witness :
  get_frames (mem one_pool) (pool0 one_pool) 3
    = (mem one_pool, pool0 one_pool, 0) /\
  mem one_pool = mem one_pool /\ pool0 one_pool = pool0 one_pool.
Proof.
  split; [reflexivity|].
  apply (get_frames_failure_is_atomic (mem one_pool) (pool0 one_pool) 3).
  - vm_compute. repeat split; discriminate.
  - vm_compute. discriminate.
  - reflexivity.
  - vm_compute. discriminate.
  - lia.
  - reflexivity.
Defined.

(** C10 as stated fails: the pool that starts at global frame 0 answers
    get_frames(1) with 0 after it has marked frame 0 HEAD and lowered its
    free count from 4 to 3. *)
Lemma get_frames_returns_zero_after_allocating :
  nFreeFrames (pool0 pool_at_zero) = 4 /\
  mem pool_at_zero (bitmap (pool0 pool_at_zero)) = FREE /\
  exists m' p',
    get_frames (mem pool_at_zero) (pool0 pool_at_zero) 1 = (m', p', 0) /\
    m' (bitmap (pool0 pool_at_zero)) = HEAD /\
    nFreeFrames p' = 3.
Proof.
  split; [reflexivity|]. split; [reflexivity|].
  eexists _, _. split; [reflexivity|]. split; reflexivity.
Qed.

(** ** Counting FREE frames *)

Lemma count_free_from_bounds k : forall m a,
  0 <= count_free_from k m a <= Z.of_nat k.
Proof.
  induction k as [|k IH]; intros m a; cbn [count_free_from]; [lia|].
  specialize (IH m (a + 1)). destruct (m a =? FREE); lia.
Qed.

Lemma count_free_from_ext k : forall m m' a,
  (forall x, a <= x < a + Z.of_nat k -> m' x = m x) ->
  count_free_from k m' a = count_free_from k m a.
Proof.
  induction k as [|k IH]; intros m m' a H; cbn [count_free_from];
    [reflexivity|].
  rewrite (H a) by lia. rewrite (IH m m' (a + 1)); [reflexivity|].
  intros x Hx. apply H. lia.
Qed.

Lemma count_free_from_app k1 : forall k2 m a,
  count_free_from (k1 + k2) m a
  = count_free_from k1 m a + count_free_from k2 m (a + Z.of_nat k1).
Proof.
  induction k1 as [|k1 IH]; intros k2 m a.
  - cbn [count_free_from Nat.add Z.of_nat]. rewrite Z.add_0_r. reflexivity.
  - cbn [count_free_from Nat.add]. rewrite IH.
    replace (a + 1 + Z.of_nat k1) with (a + Z.of_nat (S k1)) by lia. lia.
Qed.

Lemma count_free_from_all k : forall m a,
  (forall x, a <= x < a + Z.of_nat k -> m x = FREE) ->
  count_free_from k m a = Z.of_nat k.
Proof.
  induction k as [|k IH]; intros m a H; cbn [count_free_from]; [reflexivity|].
  rewrite (H a) by lia. rewrite Z.eqb_refl.
  rewrite IH; [lia|]. intros x Hx. apply H. lia.
Qed.

Lemma count_free_from_none k : forall m a,
  (forall x, a <= x < a + Z.of_nat k -> m x <> FREE) ->
  count_free_from k m a = 0.
Proof.
  induction k as [|k IH]; intros m a H; cbn [count_free_from]; [reflexivity|].
  replace (m a =? FREE) with false
    by (symmetry; apply Z.eqb_neq; apply H; lia).
  rewrite IH; [lia|]. intros x Hx. apply H. lia.
Qed.

(** Taking [n] FREE bytes in a row out of a region lowers its count by [n]. *)
Lemma count_free_from_taken N m m' a off n :
  0 <= off -> 0 <= n -> off + n <= Z.of_nat N ->
  (forall x, a + off <= x < a + off + n -> m x = FREE /\ m' x <> FREE) ->
  (forall x, ~ (a + off <= x < a + off + n) -> m' x = m x) ->
  count_free_from N m' a = count_free_from N m a - n.
Proof.
  intros Hoff Hn HN Hin Hout.
  replace N
    with (Z.to_nat off + (Z.to_nat n + Z.to_nat (Z.of_nat N - off - n)))%nat
    by lia.
  rewrite !count_free_from_app.
  rewrite (count_free_from_ext (Z.to_nat off) m m')
    by (intros x Hx; apply Hout; lia).
  rewrite (count_free_from_ext (Z.to_nat (Z.of_nat N - off - n)) m m')
    by (intros x Hx; apply Hout; lia).
  rewrite (count_free_from_all (Z.to_nat n) m)
    by (intros x Hx; apply Hin; lia).
  rewrite (count_free_from_none (Z.to_nat n) m')
    by (intros x Hx; apply Hin; lia).
  lia.
Qed.

Lemma count_free_bounds m p :
  word (nframes p) -> 0 <= count_free m p <= nframes p.
Proof.
  intros [H0 _]. unfold count_free.
  pose proof (count_free_from_bounds (Z.to_nat (nframes p)) m (bitmap p)).
  lia.
Qed.

(** ** Each call keeps the counter right *)

Lemma wrap_near x y :
  wrap x = wrap y -> - modulus < x - y < modulus -> x = y.
Proof.
  unfold wrap. rewrite modulus_eq. intros H Hd.
  Z.div_mod_to_equations. lia.
Qed.

Lemma wrap_to_int x : wrap (to_int x) = wrap x.
Proof.
  unfold to_int. cbv zeta. destruct (wrap x <? modulus / 2).
  - unfold wrap. apply Z.mod_mod. rewrite modulus_eq. lia.
  - unfold wrap. rewrite modulus_eq. Z.div_mod_to_equations. lia.
Qed.

Lemma same_frames_refl p : same_frames p p.
Proof. unfold same_frames. auto. Qed.

Lemma same_frames_set p v : same_frames p (set_nFreeFrames p v).
Proof. unfold same_frames. auto. Qed.

Lemma writes_within_refl p m : writes_within p m m.
Proof. intros a _. reflexivity. Qed.

Lemma writes_within_trans p p' m1 m2 m3 :
  same_frames p p' ->
  writes_within p m1 m2 -> writes_within p' m2 m3 -> writes_within p m1 m3.
Proof.
  intros (_ & Hn & Hb) H12 H23 a Ha.
  rewrite H23 by (rewrite Hn, Hb; exact Ha). apply H12. exact Ha.
Qed.

Lemma counted_word m p :
  counted m p -> word (nframes p) -> word (nFreeFrames p).
Proof.
  unfold counted. intros -> Hn.
  pose proof (count_free_bounds m p Hn). unfold word in *. lia.
Qed.

Lemma get_frames_counted m p n m' p' f :
  counted m p -> word (nframes p) -> 1 <= n ->
  get_frames m p n = (m', p', f) ->
  counted m' p' /\ same_frames p p' /\ writes_within p m m'.
Proof.
  intros Hc Hw Hn Hget.
  pose proof (counted_word m p Hc Hw) as Hfree.
  pose proof (count_free_bounds m p Hw) as Hcount.
  destruct (get_frames_spec m p n Hn Hfree)
    as [[E _]|(off & m1 & E & Hge & (H0 & Hle & Hrun & _) & Hmarks)];
    rewrite E in Hget; injection Hget as <- <- <-.
  - split; [exact Hc|]. split; [apply same_frames_refl|].
    apply writes_within_refl.
  - unfold counted in Hc.
    rewrite (wrap_small (nframes p - 1)) in Hle by (unfold word in *; lia).
    destruct Hmarks as (Hhead & Htail & Hrest).
    split; [|split; [apply same_frames_set|]].
    + unfold counted, count_free.
      cbn [set_nFreeFrames nFreeFrames nframes bitmap].
      rewrite (count_free_from_taken _ m m1 (bitmap p) off n); try lia.
      * unfold count_free in Hc. lia.
      * intros x Hx. split.
        -- replace x with (bitmap p + (x - bitmap p)) by lia.
           apply Hrun. lia.
        -- destruct (Z.eq_dec x (bitmap p + off)) as [->|Hne].
           ++ rewrite Hhead. discriminate.
           ++ replace x with (bitmap p + (x - bitmap p)) by lia.
              rewrite Htail by lia. discriminate.
      * exact Hrest.
    + intros a Ha. apply Hrest. lia.
Qed.

Lemma mark_inaccessible_counted m p f m' p' :
  counted m p -> word (base_frame_no p) -> word (nframes p) ->
  frame_is_free m p f ->
  mark_inaccessible m p f = Returns (m', p') ->
  counted m' p' /\ same_frames p p' /\ writes_within p m m' /\
  base_frame_no p <= f < modulus /\
  m' = store m (bitmap p + wrap (f - base_frame_no p)) INACCESSIBLE.
Proof.
  unfold mark_inaccessible, frame_is_free. intros Hc Hb Hw Hfree H.
  destruct ((base_frame_no p <=? f)
            && (f <? wrap (base_frame_no p + nframes p))) eqn:Eassert;
    [|discriminate].
  injection H as <- <-.
  apply andb_true_iff in Eassert as [Hlo Hhi].
  apply Z.leb_le in Hlo. apply Z.ltb_lt in Hhi.
  pose proof (wrap_word (base_frame_no p + nframes p)) as Hbound.
  set (idx := wrap (f - base_frame_no p)) in *.
  assert (Hidx : 0 <= idx < nframes p).
  { subst idx. unfold word, wrap in *. rewrite modulus_eq in *.
    Z.div_mod_to_equations. lia. }
  assert (Hcnt : count_free_from (Z.to_nat (nframes p))
                   (store m (bitmap p + idx) INACCESSIBLE) (bitmap p)
                 = count_free_from (Z.to_nat (nframes p)) m (bitmap p) - 1).
  { apply (count_free_from_taken _ m _ (bitmap p) idx 1); try lia.
    - intros x Hx. assert (x = bitmap p + idx) as -> by lia.
      split; [exact Hfree|]. rewrite store_same. discriminate.
    - intros x Hx. apply store_other. lia. }
  pose proof (count_free_from_bounds (Z.to_nat (nframes p))
                (store m (bitmap p + idx) INACCESSIBLE) (bitmap p)) as Hge.
  pose proof (counted_word m p Hc Hw) as Hfw.
  unfold counted, count_free in *.
  cbn [set_nFreeFrames nFreeFrames nframes bitmap].
  split; [|split; [apply same_frames_set|split; [|split]]].
  - rewrite Hcnt, <- Hc. apply wrap_small. unfold word in *. lia.
  - intros a Ha. apply store_other. lia.
  - unfold word in *. lia.
  - reflexivity.
Qed.

Lemma mark_inaccessible_loop_counted steps : forall m p i m' p',
  counted m p -> word (base_frame_no p) -> word (nframes p) ->
  (forall f, i <= f < i + Z.of_nat steps -> frame_is_free m p f) ->
  ((0 < steps)%nat -> i + Z.of_nat steps <= modulus) ->
  mark_inaccessible_loop steps m p i = Returns (m', p') ->
  counted m' p' /\ same_frames p p' /\ writes_within p m m'.
Proof.
  induction steps as [|steps IH]; intros m p i m' p' Hc Hb Hw Hfree Hfit H.
  - injection H as <- <-.
    split; [exact Hc|]. split; [apply same_frames_refl|].
    apply writes_within_refl.
  - cbn [mark_inaccessible_loop] in H.
    destruct (mark_inaccessible m p i) as [[m1 p1]| |[m1 p1]] eqn:E;
      try discriminate.
    destruct (mark_inaccessible_counted m p i m1 p1 Hc Hb Hw)
      as (Hc1 & Hsame & Hwithin & Hi & Hm1); [apply Hfree; lia|exact E|].
    specialize (Hfit ltac:(lia)).
    assert (Hwi : (0 < steps)%nat -> wrap (i + 1) = i + 1).
    { intros Hpos. apply wrap_small. unfold word in *. lia. }
    destruct Hsame as (Hsb & Hsn & Hsm).
    destruct (IH m1 p1 (wrap (i + 1)) m' p') as (Hc' & Hsame' & Hwithin').
    + exact Hc1.
    + rewrite Hsb. exact Hb.
    + rewrite Hsn. exact Hw.
    + intros f Hf. rewrite Hwi in Hf by lia.
      unfold frame_is_free. rewrite Hsm, Hsb, Hm1.
      rewrite store_other; [apply Hfree; lia|].
      intros Heq.
      assert (Hsame : wrap (f - base_frame_no p) = wrap (i - base_frame_no p))
        by lia.
      unfold word in *. apply wrap_near in Hsame; lia.
    + intros Hpos. rewrite Hwi by exact Hpos. lia.
    + exact H.
    + split; [exact Hc'|]. split.
      * destruct Hsame' as (Hb' & Hn' & Hm').
        unfold same_frames. rewrite Hb', Hn', Hm'. auto.
      * apply (writes_within_trans p p1 m m1 m');
          [unfold same_frames; auto|exact Hwithin|exact Hwithin'].
Qed.

Lemma count_free_ext m m' q :
  (forall x, bitmap q <= x < bitmap q + nframes q -> m' x = m x) ->
  count_free m' q = count_free m q.
Proof.
  intros H. unfold count_free. apply count_free_from_ext.
  intros x Hx. apply H. lia.
Qed.

Lemma apart_sym p q : apart p q -> apart q p.
Proof. unfold apart. tauto. Qed.

Lemma apart_same_frames p p' q :
  same_frames p p' -> apart p q -> apart p' q.
Proof. unfold same_frames, apart. intros (_ & -> & ->). tauto. Qed.

(** A method call on the pool at position [k] that keeps that pool's counter
    right and writes only to its state bytes keeps the whole invariant. *)
Lemma kernel_inv_update s k p m' p' :
  kernel_inv s -> pool_head s !! k = Some p ->
  counted m' p' -> same_frames p p' -> writes_within p (mem s) m' ->
  kernel_inv (mkKernel m' (<[k := p']> (pool_head s))).
Proof.
  intros [Hpools Hapart] Hk Hc Hsame Hwithin.
  destruct (Hpools k p Hk) as (_ & Hb & Hn).
  split; cbn [mem pool_head].
  - intros j q Hj. apply list_lookup_insert_Some in Hj
      as [(<- & <- & _)|(Hne & Hj)].
    + destruct Hsame as (-> & -> & _). auto.
    + destruct (Hpools j q Hj) as (Hcq & Hbq & Hnq).
      split; [|auto]. unfold counted in *. rewrite Hcq.
      symmetry. apply count_free_ext. intros x Hx. apply Hwithin.
      specialize (Hapart k j p q Hne Hk Hj). unfold apart in Hapart. lia.
  - intros i j q r Hij Hi Hj.
    apply list_lookup_insert_Some in Hi as [(<- & <- & _)|(Hnei & Hi)];
      apply list_lookup_insert_Some in Hj as [(<- & <- & _)|(Hnej & Hj)].
    + contradiction.
    + apply (apart_same_frames p); [exact Hsame|].
      exact (Hapart k j p r Hij Hk Hj).
    + apply apart_sym, (apart_same_frames p); [exact Hsame|].
      apply apart_sym. exact (Hapart i k q p Hij Hi Hk).
    + exact (Hapart i j q r Hij Hi Hj).
Qed.

Lemma fill_free_spec k : forall bm m i,
  0 <= i -> i + Z.of_nat k <= modulus ->
  (forall a, bm + i <= a < bm + i + Z.of_nat k ->
     fill_free k bm m i a = FREE) /\
  (forall a, ~ (bm + i <= a < bm + i + Z.of_nat k) ->
     fill_free k bm m i a = m a).
Proof.
  induction k as [|k IH]; intros bm m i Hi Hfit; cbn [fill_free].
  - split; [intros a Ha; lia|reflexivity].
  - destruct k as [|k].
    + cbn [fill_free]. split.
      * intros a Ha. assert (a = bm + i) as -> by lia. apply store_same.
      * intros a Ha. apply store_other. lia.
    + assert (Hw : wrap (i + 1) = i + 1)
        by (apply wrap_small; unfold word; lia).
      rewrite Hw.
      destruct (IH bm (store m (bm + i) FREE) (i + 1)) as [Hin Hout];
        try lia.
      split.
      * intros a Ha. destruct (Z.eq_dec a (bm + i)) as [->|Hne].
        -- rewrite Hout by lia. apply store_same.
        -- apply Hin. lia.
      * intros a Ha. rewrite Hout by lia. apply store_other. lia.
Qed.

(** With no info frames to reserve the second loop of the constructor stops
    at its first test. *)
Lemma info_loop_none fuel bm m nFree c :
  1 <= c < modulus ->
  info_loop (S fuel) bm m nFree (to_int c) (wrap (c + 0 - 1))
  = Returns (m, nFree).
Proof.
  intros Hc. cbn [info_loop]. rewrite wrap_to_int.
  rewrite (wrap_small c) by (unfold word; lia).
  rewrite (wrap_small (c + 0 - 1)) by (unfold word; lia).
  replace (c <=? c + 0 - 1) with false by (symmetry; apply Z.leb_gt; lia).
  reflexivity.
Qed.

Lemma kernel_inv_extend s m' q :
  kernel_inv s ->
  counted m' q -> word (base_frame_no q) -> word (nframes q) ->
  writes_within q (mem s) m' ->
  (forall r, r ∈ pool_head s -> apart q r) ->
  kernel_inv (mkKernel m' (pool_head s ++ [q])).
Proof.
  intros [Hpools Hapart] Hc Hb Hn Hwithin Hnew.
  split; cbn [mem pool_head].
  - intros k r Hk. apply lookup_app_Some in Hk as [Hk|[_ Hk]].
    + destruct (Hpools k r Hk) as (Hcr & Hbr & Hnr).
      split; [|auto]. unfold counted in *. rewrite Hcr.
      symmetry. apply count_free_ext. intros x Hx. apply Hwithin.
      pose proof (Hnew r (list_elem_of_lookup_2 _ _ _ Hk)) as Ha.
      unfold apart in Ha. lia.
    + apply list_lookup_singleton_Some in Hk as [_ <-]. auto.
  - intros j k r1 r2 Hjk Hj Hk.
    apply lookup_app_Some in Hj as [Hj|[Hlj Hj]];
      apply lookup_app_Some in Hk as [Hk|[Hlk Hk]].
    + exact (Hapart j k r1 r2 Hjk Hj Hk).
    + apply list_lookup_singleton_Some in Hk as [_ <-].
      apply apart_sym, Hnew. exact (list_elem_of_lookup_2 _ _ _ Hj).
    + apply list_lookup_singleton_Some in Hj as [_ <-].
      apply Hnew. exact (list_elem_of_lookup_2 _ _ _ Hk).
    + apply list_lookup_singleton_Some in Hj as [Hj0 _].
      apply list_lookup_singleton_Some in Hk as [Hk0 _].
      exfalso. apply Hjk. lia.
Qed.

Lemma new_ContFramePool_inv FRAME_SIZE fuel b n i ni s s' :
  kernel_inv s ->
  disciplined FRAME_SIZE s (Construct b n i ni) ->
  new_ContFramePool FRAME_SIZE fuel b n i ni s = Returns s' ->
  kernel_inv s'.
Proof.
  intros Hinv (-> & Hn & Hb & Hi & Hnew) H.
  unfold new_ContFramePool in H.
  destruct (n <=? wrap (FRAME_SIZE * 8)) eqn:Eassert; [|discriminate].
  apply Z.leb_le in Eassert.
  pose proof (wrap_word (FRAME_SIZE * 8)) as Hcap.
  assert (Hnw : word n) by (unfold word in *; lia).
  cbv zeta in Hnew.
  destruct fuel as [|fuel].
  { destruct (i =? 0); discriminate H. }
  destruct (i =? 0) eqn:Ei; cbv beta iota zeta in H.
  - rewrite info_loop_none in H by (rewrite modulus_eq; lia).
    injection H as <-.
    set (bm := wrap (b * FRAME_SIZE)) in *.
    destruct (fill_free_spec (Z.to_nat n) bm (mem s) 0) as [Hin Hout];
      [lia|unfold word in *; lia|].
    apply kernel_inv_extend; cbn [base_frame_no nframes bitmap];
      [exact Hinv| |exact Hb|exact Hnw| |].
    + unfold counted, count_free. cbn [nFreeFrames nframes bitmap].
      rewrite (count_free_from_taken _
                 (fill_free (Z.to_nat n) bm (mem s) 0) _ bm 0 1); try lia.
      * rewrite count_free_from_all by (intros x Hx; apply Hin; lia).
        rewrite wrap_small by (unfold word in *; lia). lia.
      * intros x Hx. assert (x = bm + 0) as -> by lia.
        split; [apply Hin; lia|]. rewrite store_same. discriminate.
      * intros x Hx. apply store_other. lia.
    + intros a Ha. cbn [nframes bitmap] in Ha.
      rewrite store_other by lia. apply Hout. lia.
    + intros r Hr. unfold apart. cbn [nframes bitmap]. apply Hnew, Hr.
  - apply Z.eqb_neq in Ei.
    rewrite info_loop_none in H by (unfold word in *; lia).
    injection H as <-.
    set (bm := wrap (i * FRAME_SIZE)) in *.
    destruct (fill_free_spec (Z.to_nat n) bm (mem s) 0) as [Hin Hout];
      [lia|unfold word in *; lia|].
    apply kernel_inv_extend; cbn [base_frame_no nframes bitmap];
      [exact Hinv| |exact Hb|exact Hnw| |].
    + unfold counted, count_free. cbn [nFreeFrames nframes bitmap].
      rewrite count_free_from_all by (intros x Hx; apply Hin; lia). lia.
    + intros a Ha. cbn [nframes bitmap] in Ha. apply Hout. lia.
    + intros r Hr. unfold apart. cbn [nframes bitmap]. apply Hnew, Hr.
Qed.

(** Every call that returns keeps the invariant, when the caller keeps to
    its side. *)
Lemma step_keeps_inv FRAME_SIZE s c s' :
  kernel_inv s -> disciplined FRAME_SIZE s c -> step FRAME_SIZE s c s' ->
  kernel_inv s'.
Proof.
  intros Hinv Hok Hstep.
  destruct Hstep as [fuel b n i ni s s' H|k n s s' f H|k f s s' H
                    |k b n s s' H|fuel f s s' H].
  - exact (new_ContFramePool_inv _ _ _ _ _ _ _ _ Hinv Hok H).
  - unfold get_frames_at in H.
    destruct (pool_head s !! k) as [p|] eqn:Ek; [|discriminate].
    destruct (get_frames (mem s) p n) as [[m' p'] f'] eqn:Eget.
    injection H as <- _.
    destruct (proj1 Hinv k p Ek) as (Hc & Hb & Hn).
    destruct (get_frames_counted _ _ _ _ _ _ Hc Hn Hok Eget)
      as (Hc' & Hsame & Hwithin).
    exact (kernel_inv_update s k p m' p' Hinv Ek Hc' Hsame Hwithin).
  - unfold mark_inaccessible_at in H.
    destruct (pool_head s !! k) as [p|] eqn:Ek; [|discriminate].
    destruct (mark_inaccessible (mem s) p f) as [[m' p']| |[m' p']] eqn:E;
      cbn [lift_at] in H; try discriminate.
    injection H as <-.
    destruct (proj1 Hinv k p Ek) as (Hc & Hb & Hn).
    destruct (mark_inaccessible_counted _ _ _ _ _ Hc Hb Hn (Hok p Ek) E)
      as (Hc' & Hsame & Hwithin & _).
    exact (kernel_inv_update s k p m' p' Hinv Ek Hc' Hsame Hwithin).
  - unfold mark_inaccessible_range_at in H.
    destruct (pool_head s !! k) as [p|] eqn:Ek; [|discriminate].
    destruct (mark_inaccessible_range (mem s) p b n)
      as [[m' p']| |[m' p']] eqn:E;
      cbn [lift_at] in H; try discriminate.
    injection H as <-.
    destruct (proj1 Hinv k p Ek) as (Hc & Hb & Hn).
    unfold mark_inaccessible_range in E.
    pose proof (wrap_word (b + n)) as Hbound.
    assert (Hfree : forall f,
              b <= f < b + Z.of_nat (Z.to_nat (wrap (b + n) - b)) ->
              frame_is_free (mem s) p f)
      by (intros f Hf; apply (Hok p Ek); lia).
    assert (Hfit : (0 < Z.to_nat (wrap (b + n) - b))%nat ->
              b + Z.of_nat (Z.to_nat (wrap (b + n) - b)) <= modulus)
      by (intros Hpos; unfold word in *; lia).
    destruct (mark_inaccessible_loop_counted _ _ _ _ _ _ Hc Hb Hn Hfree Hfit E)
      as (Hc' & Hsame & Hwithin).
    exact (kernel_inv_update s k p m' p' Hinv Ek Hc' Hsame Hwithin).
  - apply release_frames_returns in H. subst s'. exact Hinv.
Qed.

Lemma reachable_inv FRAME_SIZE s :
  reachable FRAME_SIZE (disciplined FRAME_SIZE) s -> kernel_inv s.
Proof.
  induction 1 as [m|s c s' _ IH Hok Hstep].
  - split; cbn [mem pool_head]; intros; discriminate.
  - exact (step_keeps_inv FRAME_SIZE s c s' IH Hok Hstep).
Qed.

(** X22: start from an empty pool list and let the callers keep to their
    side ([disciplined]: pools are built over at least one frame, with no
    info frames to reserve and with state bytes of their own; get_frames asks
    for at least one frame; mark_inaccessible, in either form, is applied to
    frames that are FREE).  Then after any sequence of calls that return, a
    release_frames that returns being one that selected no pool, the
    nFreeFrames of every pool equals the number of its frames whose stored
    state is FREE. *)
Theorem free_count_matches_free_frames (FRAME_SIZE : Z) (s : kernel) :
  reachable FRAME_SIZE (disciplined FRAME_SIZE) s ->
  forall p, p ∈ pool_head s -> nFreeFrames p = count_free (mem s) p.
Proof.
  intros Hreach p Hp.
  apply list_elem_of_lookup_1 in Hp as [k Hk].
  destruct (reachable_inv FRAME_SIZE s Hreach) as [Hpools _].
  exact (proj1 (Hpools k p Hk)).
Qed.

Lemma free_count_matches_free_frames_witness :
  reachable 4096 (disciplined 4096) after_mark /\
  forall p, p ∈ pool_head after_mark ->
    nFreeFrames p = count_free (mem after_mark) p.
Proof.
  assert (Hreach : reachable 4096 (disciplined 4096) after_mark).
  { apply (reach_step 4096 _ after_mark (Release 100) after_mark).
    - apply (reach_step 4096 _ after_get2 (MarkInaccessible 0 515)).
      + apply (reach_step 4096 _ one_pool (GetFrames 0 2)).
        * apply (reach_step 4096 _ boot (Construct 512 4 0 0)).
          -- apply reach_boot.
          -- cbn. repeat split; try reflexivity; try discriminate.
             intros q Hq. inversion Hq.
          -- apply (step_construct 4096 1). reflexivity.
        * cbn. lia.
        * apply (step_get_frames 4096 0 2 one_pool after_get2 513).
          reflexivity.
      + intros p Hp. injection Hp as <-. reflexivity.
      + apply step_mark. reflexivity.
    - exact I.
    - apply (step_release 4096 1). reflexivity. }
  split; [exact Hreach|].
  apply (free_count_matches_free_frames 4096 after_mark). exact Hreach.
Defined.

(** Without that discipline the counter drifts: mark_inaccessible lowers it
    whatever the frame's state was, so marking frame 513 of the example pool
    twice leaves nFreeFrames at 1 while two frames are FREE. *)
Lemma free_count_drifts_on_second_mark :
  reachable 4096 any_call marked_twice /\
  states (mem marked_twice) (pool0 marked_twice)
    = [OWN_FRAME; INACCESSIBLE; FREE; FREE] /\
  exists p, p ∈ pool_head marked_twice /\
    nFreeFrames p = 1 /\ count_free (mem marked_twice) p = 2.
Proof.
  split; [|split; [reflexivity|]].
  - apply (reach_step 4096 _ marked_once (MarkInaccessible 0 513));
      [|exact I|apply step_mark; reflexivity].
    apply (reach_step 4096 _ one_pool (MarkInaccessible 0 513));
      [|exact I|apply step_mark; reflexivity].
    apply (reach_step 4096 _ boot (Construct 512 4 0 0));
      [apply reach_boot|exact I|].
    apply (step_construct 4096 1). reflexivity.
  - exists (pool0 marked_twice). split; [|split; reflexivity].
    apply (list_elem_of_lookup_2 _ 0%nat). reflexivity.
Qed.

(** C2 (the code departs from the claim): immediately after construction the
    counter is already wrong.  Built with one info frame to reserve, the
    example pool writes the FREE byte over that frame while it lowers the
    counter (lines 188-191), so the state reached by the constructor alone
    has nFreeFrames = 2 and three FREE frames. *)
Theorem constructor_counts_free_info_frame :
  new_ContFramePool 4096 2 512 4 0 1 boot = Returns one_pool_with_info /\
  reachable 4096 any_call one_pool_with_info /\
  pool0 one_pool_with_info ∈ pool_head one_pool_with_info /\
  states (mem one_pool_with_info) (pool0 one_pool_with_info)
    = [OWN_FRAME; FREE; FREE; FREE] /\
  nFreeFrames (pool0 one_pool_with_info) = 2 /\
  count_free (mem one_pool_with_info) (pool0 one_pool_with_info) = 3.
Proof.
  split; [reflexivity|]. split; [|split].
  - apply (reach_step 4096 _ boot (Construct 512 4 0 1));
      [apply reach_boot|exact I|].
    apply (step_construct 4096 2). reflexivity.
  - apply (list_elem_of_lookup_2 _ 0%nat). reflexivity.
  - repeat split; reflexivity.
Qed.

(** * Further properties of the operations *)

(** ** mark_inaccessible, frame by frame and over a range *)

Lemma mark_inaccessible_inside m p f :
  well_typed p ->
  base_frame_no p <= f < wrap (base_frame_no p + nframes p) ->
  0 <= f - base_frame_no p < nframes p /\
  mark_inaccessible m p f
  = Returns (store m (bitmap p + (f - base_frame_no p)) INACCESSIBLE,
             set_nFreeFrames p (wrap (nFreeFrames p - 1))).
Proof.
  intros (Hb & Hn & _) [Hlo Hhi]. unfold mark_inaccessible.
  pose proof (wrap_word (base_frame_no p + nframes p)) as Hend.
  assert (Hidx : 0 <= f - base_frame_no p < nframes p).
  { unfold word, wrap in *. rewrite modulus_eq in *.
    Z.div_mod_to_equations. lia. }
  split; [exact Hidx|].
  replace (base_frame_no p <=? f) with true
    by (symmetry; apply Z.leb_le; exact Hlo).
  replace (f <? wrap (base_frame_no p + nframes p)) with true
    by (symmetry; apply Z.ltb_lt; exact Hhi).
  cbn [andb]. rewrite (wrap_small (f - base_frame_no p)); [reflexivity|].
  unfold word in *. lia.
Qed.

Lemma mark_inaccessible_outside m p f :
  ~ (base_frame_no p <= f < wrap (base_frame_no p + nframes p)) ->
  mark_inaccessible m p f = Fatal.
Proof.
  intros Hout. unfold mark_inaccessible.
  destruct (base_frame_no p <=? f) eqn:Elo; [|reflexivity].
  destruct (f <? wrap (base_frame_no p + nframes p)) eqn:Ehi;
    [|reflexivity].
  apply Z.leb_le in Elo. apply Z.ltb_lt in Ehi. exfalso. apply Hout. lia.
Qed.

(** X1: the single form either fails its range assert, exactly when the frame
    is outside the pool, or writes one byte, at an index inside the pool's
    state bytes, and lowers the counter by one. *)
Theorem mark_inaccessible_bounds (m : memory) (p : ContFramePool) (f : Z) :
  well_typed p ->
  (base_frame_no p <= f < wrap (base_frame_no p + nframes p) ->
   0 <= f - base_frame_no p < nframes p /\
   mark_inaccessible m p f
   = Returns (store m (bitmap p + (f - base_frame_no p)) INACCESSIBLE,
              set_nFreeFrames p (wrap (nFreeFrames p - 1)))) /\
  (~ (base_frame_no p <= f < wrap (base_frame_no p + nframes p)) ->
   mark_inaccessible m p f = Fatal).
Proof.
  intros Hwt. split.
  - apply mark_inaccessible_inside. exact Hwt.
  - apply mark_inaccessible_outside.
Qed.

Lemma mark_inaccessible_bounds_witness :
  (base_frame_no (pool0 one_pool) <= 513
     < wrap (base_frame_no (pool0 one_pool) + nframes (pool0 one_pool)) ->
   0 <= 513 - base_frame_no (pool0 one_pool) < nframes (pool0 one_pool) /\
   mark_inaccessible (mem one_pool) (pool0 one_pool) 513
   = Returns (store (mem one_pool)
                (bitmap (pool0 one_pool)
                 + (513 - base_frame_no (pool0 one_pool))) INACCESSIBLE,
              set_nFreeFrames (pool0 one_pool)
                (wrap (nFreeFrames (pool0 one_pool) - 1)))) /\
  (~ (base_frame_no (pool0 one_pool) <= 513
        < wrap (base_frame_no (pool0 one_pool) + nframes (pool0 one_pool))) ->
   mark_inaccessible (mem one_pool) (pool0 one_pool) 513 = Fatal).
Proof.
  apply (mark_inaccessible_bounds (mem one_pool) (pool0 one_pool) 513).
  vm_compute. repeat split; discriminate.
Defined.

Lemma set_nFreeFrames_twice p a b :
  set_nFreeFrames (set_nFreeFrames p a) b = set_nFreeFrames p b.
Proof. reflexivity. Qed.

Lemma wrap_sub_l x y : wrap (wrap x - y) = wrap (x - y).
Proof. unfold wrap. apply Zminus_mod_idemp_l. Qed.

Lemma mark_inaccessible_loop_inside steps : forall m p i,
  well_typed p ->
  base_frame_no p <= i ->
  i + Z.of_nat steps <= wrap (base_frame_no p + nframes p) ->
  exists m',
    mark_inaccessible_loop steps m p i
    = Returns (m', set_nFreeFrames p (wrap (nFreeFrames p - Z.of_nat steps)))
    /\
    (forall a, bitmap p + (i - base_frame_no p) <= a
               < bitmap p + (i - base_frame_no p) + Z.of_nat steps ->
       m' a = INACCESSIBLE) /\
    (forall a, ~ (bitmap p + (i - base_frame_no p) <= a
                  < bitmap p + (i - base_frame_no p) + Z.of_nat steps) ->
       m' a = m a).
Proof.
  induction steps as [|steps IH]; intros m p i Hwt Hlo Hhi.
  - exists m. cbn [mark_inaccessible_loop Z.of_nat].
    rewrite Z.sub_0_r. rewrite wrap_small by apply Hwt.
    split; [destruct p; reflexivity|].
    split; [intros a Ha; lia|reflexivity].
  - cbn [mark_inaccessible_loop].
    pose proof (wrap_word (base_frame_no p + nframes p)) as Hend.
    destruct (mark_inaccessible_inside m p i Hwt ltac:(lia)) as [Hidx ->].
    assert (Hwi : wrap (i + 1) = i + 1).
    { apply wrap_small. destruct Hwt as (Hb & _). unfold word in *. lia. }
    rewrite Hwi.
    destruct (IH (store m (bitmap p + (i - base_frame_no p)) INACCESSIBLE)
                (set_nFreeFrames p (wrap (nFreeFrames p - 1))) (i + 1))
      as (m' & E & Hin & Hout).
    + destruct Hwt as (Hb & Hn & _).
      split; [exact Hb|]. split; [exact Hn|]. apply wrap_word.
    + cbn [set_nFreeFrames base_frame_no]. lia.
    + cbn [set_nFreeFrames base_frame_no nframes]. lia.
    + cbn [set_nFreeFrames base_frame_no nframes nFreeFrames bitmap] in *.
      exists m'. split; [|split].
      * rewrite E. rewrite wrap_sub_l.
        replace (nFreeFrames p - 1 - Z.of_nat steps)
          with (nFreeFrames p - Z.of_nat (S steps)) by lia.
        reflexivity.
      * intros a Ha.
        destruct (Z.eq_dec a (bitmap p + (i - base_frame_no p))) as [->|Hne].
        -- rewrite Hout by lia. apply store_same.
        -- apply Hin. lia.
      * intros a Ha. rewrite Hout by lia. apply store_other. lia.
Qed.

(** X2: the range form over frames that all lie inside the pool returns, has
    written the inaccessible byte over exactly those frames, and has lowered
    the counter once per frame. *)
Theorem mark_inaccessible_range_inside (m : memory) (p : ContFramePool)
  (b n : Z) :
  well_typed p ->
  base_frame_no p <= b -> 0 <= n ->
  b + n <= wrap (base_frame_no p + nframes p) ->
  exists m',
    mark_inaccessible_range m p b n
    = Returns (m', set_nFreeFrames p (wrap (nFreeFrames p - n))) /\
    (forall j, b - base_frame_no p <= j < b - base_frame_no p + n ->
       m' (bitmap p + j) = INACCESSIBLE) /\
    (forall a, ~ (bitmap p + (b - base_frame_no p) <= a
                  < bitmap p + (b - base_frame_no p) + n) ->
       m' a = m a).
Proof.
  intros Hwt Hlo Hn Hhi. unfold mark_inaccessible_range.
  pose proof (wrap_word (base_frame_no p + nframes p)) as Hend.
  assert (Hw : wrap (b + n) = b + n).
  { apply wrap_small. destruct Hwt as (Hb & _). unfold word in *. lia. }
  rewrite Hw. replace (b + n - b) with n by lia.
  destruct (mark_inaccessible_loop_inside (Z.to_nat n) m p b Hwt Hlo)
    as (m' & E & Hin & Hout); [lia|].
  rewrite Z2Nat.id in * by lia.
  exists m'. split; [exact E|]. split; [|exact Hout].
  intros j Hj. apply Hin. lia.
Qed.

Lemma mark_inaccessible_range_inside_witness :
  exists m',
    mark_inaccessible_range (mem one_pool) (pool0 one_pool) 514 2
    = Returns (m', set_nFreeFrames (pool0 one_pool)
                     (wrap (nFreeFrames (pool0 one_pool) - 2))) /\
    (forall j, 514 - base_frame_no (pool0 one_pool) <= j
               < 514 - base_frame_no (pool0 one_pool) + 2 ->
       m' (bitmap (pool0 one_pool) + j) = INACCESSIBLE) /\
    (forall a, ~ (bitmap (pool0 one_pool)
                  + (514 - base_frame_no (pool0 one_pool)) <= a
                  < bitmap (pool0 one_pool)
                    + (514 - base_frame_no (pool0 one_pool)) + 2) ->
       m' a = mem one_pool a).
Proof.
  apply (mark_inaccessible_range_inside (mem one_pool) (pool0 one_pool) 514 2).
  - vm_compute. repeat split; discriminate.
  - vm_compute. discriminate.
  - lia.
  - vm_compute. discriminate.
Defined.

Lemma mark_inaccessible_loop_not_running steps : forall m p i a,
  mark_inaccessible_loop steps m p i <> Running a.
Proof.
  induction steps as [|steps IH]; intros m p i a;
    cbn [mark_inaccessible_loop]; [discriminate|].
  unfold mark_inaccessible.
  destruct ((base_frame_no p <=? i)
            && (i <? wrap (base_frame_no p + nframes p)));
    [apply IH|discriminate].
Qed.

Lemma mark_inaccessible_loop_returns steps : forall m p i m' p',
  0 <= i ->
  ((0 < steps)%nat -> i + Z.of_nat steps <= modulus) ->
  mark_inaccessible_loop steps m p i = Returns (m', p') ->
  steps = 0%nat \/
  (base_frame_no p <= i /\
   i + Z.of_nat steps <= wrap (base_frame_no p + nframes p)).
Proof.
  induction steps as [|steps IH]; intros m p i m' p' Hi Hfit H;
    [left; reflexivity|].
  right. cbn [mark_inaccessible_loop] in H. unfold mark_inaccessible in H.
  pose proof (wrap_word (base_frame_no p + nframes p)) as Hend.
  unfold word in Hend.
  destruct ((base_frame_no p <=? i)
            && (i <? wrap (base_frame_no p + nframes p))) eqn:Eassert;
    [|discriminate].
  apply andb_true_iff in Eassert as [Hlo Hhi].
  apply Z.leb_le in Hlo. apply Z.ltb_lt in Hhi.
  specialize (Hfit ltac:(lia)).
  apply IH in H.
  - cbn [set_nFreeFrames base_frame_no nframes] in H.
    destruct H as [->|[Hlo' Hhi']]; [lia|].
    rewrite wrap_small in Hlo', Hhi' by (unfold word; lia). lia.
  - rewrite wrap_small by (unfold word; lia). lia.
  - intros Hpos. rewrite wrap_small by (unfold word; lia). lia.
Qed.

(** X3: the range form over a non-empty range of which some frame lies
    outside the pool fails fatally, whatever part of the range is inside. *)
Theorem mark_inaccessible_range_sticking_out (m : memory) (p : ContFramePool)
  (b n : Z) :
  0 <= b < wrap (b + n) ->
  ~ (base_frame_no p <= b /\
     wrap (b + n) <= wrap (base_frame_no p + nframes p)) ->
  mark_inaccessible_range m p b n = Fatal.
Proof.
  intros Hne Hout. unfold mark_inaccessible_range.
  pose proof (wrap_word (b + n)) as Hbound. unfold word in Hbound.
  destruct (mark_inaccessible_loop (Z.to_nat (wrap (b + n) - b)) m p b)
    as [[m' p']| |a] eqn:E; [|reflexivity|].
  - exfalso. apply mark_inaccessible_loop_returns in E.
    + destruct E as [E|[Hlo Hhi]]; [lia|]. apply Hout. lia.
    + lia.
    + intros _. lia.
  - exfalso. exact (mark_inaccessible_loop_not_running _ _ _ _ _ E).
Qed.

Lemma mark_inaccessible_range_sticking_out_witness :
  mark_inaccessible_range (mem one_pool) (pool0 one_pool) 514 3 = Fatal.
Proof.
  apply (mark_inaccessible_range_sticking_out (mem one_pool) (pool0 one_pool)
           514 3).
  - vm_compute. split; [discriminate|reflexivity].
  - vm_compute. intros [_ H]. apply H. reflexivity.
Defined.

Lemma count_free_from_same_test k : forall m m' a,
  (forall x, a <= x < a + Z.of_nat k ->
     (m' x =? FREE) = (m x =? FREE)) ->
  count_free_from k m' a = count_free_from k m a.
Proof.
  induction k as [|k IH]; intros m m' a H; cbn [count_free_from];
    [reflexivity|].
  rewrite (H a) by lia. rewrite (IH m m' (a + 1)); [reflexivity|].
  intros x Hx. apply H. lia.
Qed.

(** X4: marking a frame whose state is not FREE leaves the number of FREE
    frames as it was and still lowers the counter, so a counter that was right
    is wrong afterwards. *)
Theorem mark_inaccessible_taken_frame (m : memory) (p : ContFramePool)
  (f : Z) (m' : memory) (p' : ContFramePool) :
  well_typed p ->
  mark_inaccessible m p f = Returns (m', p') ->
  m (bitmap p + (f - base_frame_no p)) <> FREE ->
  count_free m' p' = count_free m p /\
  nFreeFrames p' = wrap (nFreeFrames p - 1) /\
  (counted m p -> ~ counted m' p').
Proof.
  intros Hwt H Hbusy.
  destruct (Z_le_gt_dec (base_frame_no p) f) as [Hlo|Hlo];
    [destruct (Z_lt_ge_dec f (wrap (base_frame_no p + nframes p)))
       as [Hhi|Hhi]|];
    try (rewrite mark_inaccessible_outside in H by lia; discriminate).
  destruct (mark_inaccessible_inside m p f Hwt (conj Hlo Hhi)) as [Hidx E].
  rewrite E in H. injection H as <- <-.
  assert (Hcount : count_free
                     (store m (bitmap p + (f - base_frame_no p)) INACCESSIBLE)
                     (set_nFreeFrames p (wrap (nFreeFrames p - 1)))
                   = count_free m p).
  { unfold count_free. cbn [set_nFreeFrames nframes bitmap].
    apply count_free_from_same_test. intros x Hx. unfold store.
    destruct (x =? bitmap p + (f - base_frame_no p)) eqn:Ex; [|reflexivity].
    apply Z.eqb_eq in Ex. subst x. symmetry. apply Z.eqb_neq. exact Hbusy. }
  split; [exact Hcount|]. split; [reflexivity|].
  unfold counted. rewrite Hcount. cbn [set_nFreeFrames nFreeFrames].
  intros Hc Hc'. rewrite <- Hc in Hc'.
  destruct Hwt as (_ & _ & Hfree).
  unfold word, wrap in *. rewrite modulus_eq in *.
  Z.div_mod_to_equations. lia.
Qed.

Lemma mark_inaccessible_taken_frame_witness :
  count_free (mem marked_twice) (pool0 marked_twice)
  = count_free (mem marked_once) (pool0 marked_once) /\
  nFreeFrames (pool0 marked_twice)
  = wrap (nFreeFrames (pool0 marked_once) - 1) /\
  (counted (mem marked_once) (pool0 marked_once) ->
   ~ counted (mem marked_twice) (pool0 marked_twice)).
Proof.
  apply (mark_inaccessible_taken_frame (mem marked_once) (pool0 marked_once)
           513).
  - vm_compute. repeat split; discriminate.
  - reflexivity.
  - vm_compute. discriminate.
Defined.

(** ** get_frames: what it leaves alone and when it succeeds *)

(** X5: a request for at least one frame changes no byte that was not FREE:
    frames that are allocated, reserved or inaccessible keep their state. *)
Theorem get_frames_keeps_taken_frames (m : memory) (p : ContFramePool)
  (n : Z) (m' : memory) (p' : ContFramePool) (f : Z) :
  1 <= n -> word (nFreeFrames p) ->
  get_frames m p n = (m', p', f) ->
  forall a, m a <> FREE -> m' a = m a.
Proof.
  intros Hn Hfree Hget a Ha.
  destruct (get_frames_spec m p n Hn Hfree)
    as [[E _]|(off & m1 & E & _ & (_ & _ & Hrun & _) & (_ & _ & Hrest))];
    rewrite E in Hget; injection Hget as <- <- <-; [reflexivity|].
  apply Hrest. intros Hin. apply Ha.
  replace a with (bitmap p + (a - bitmap p)) by lia. apply Hrun. lia.
Qed.

Lemma get_frames_keeps_taken_frames_witness :
  mem after_get2 (bitmap (pool0 one_pool))
  = mem one_pool (bitmap (pool0 one_pool)).
Proof.
  apply (get_frames_keeps_taken_frames (mem one_pool) (pool0 one_pool) 2
           (mem after_get2) (pool0 after_get2) 513).
  - lia.
  - vm_compute. split; [discriminate|reflexivity].
  - reflexivity.
  - vm_compute. discriminate.
Defined.

(** X6: two successful requests in a row hand out disjoint runs of frame
    numbers. *)
Theorem get_frames_twice_disjoint (m : memory) (p : ContFramePool)
  (n1 n2 : Z) (m1 : memory) (p1 : ContFramePool) (f1 : Z)
  (m2 : memory) (p2 : ContFramePool) (f2 : Z) :
  well_typed p -> 1 <= nframes p ->
  base_frame_no p + nframes p <= modulus ->
  1 <= n1 -> 1 <= n2 ->
  get_frames m p n1 = (m1, p1, f1) -> f1 <> 0 ->
  get_frames m1 p1 n2 = (m2, p2, f2) -> f2 <> 0 ->
  f1 + n1 <= f2 \/ f2 + n2 <= f1.
Proof.
  intros (Hb & Hnf & Hfree) H1 Hfit Hn1 Hn2 Hget1 Hf1 Hget2 Hf2.
  destruct (get_frames_spec m p n1 Hn1 Hfree)
    as [[E _]|(off1 & m1' & E & Hge1 & (H01 & Hle1 & _) & Hmarks)];
    rewrite E in Hget1; injection Hget1 as <- <- <-; [contradiction|].
  assert (Hfree1 : word (nFreeFrames
                           (set_nFreeFrames p (nFreeFrames p - n1))))
    by (cbn [set_nFreeFrames nFreeFrames]; unfold word in *; lia).
  destruct (get_frames_spec m1' (set_nFreeFrames p (nFreeFrames p - n1)) n2
              Hn2 Hfree1)
    as [[E2 _]|(off2 & m2' & E2 & Hge2 & (H02 & Hle2 & Hrun2 & _) & _)];
    rewrite E2 in Hget2; injection Hget2 as <- <- <-; [contradiction|].
  cbn [set_nFreeFrames base_frame_no nframes bitmap] in *.
  unfold word in *.
  rewrite (wrap_small (nframes p - 1)) in Hle1, Hle2 by (unfold word; lia).
  rewrite !wrap_small by (unfold word; lia).
  destruct (Z_le_gt_dec (off1 + n1) off2) as [Hd|Hd]; [left; lia|].
  destruct (Z_le_gt_dec (off2 + n2) off1) as [Hd'|Hd']; [right; lia|].
  exfalso. destruct Hmarks as (Hhead & Htail & _).
  pose proof (Hrun2 (Z.max off1 off2) ltac:(lia)) as Hfree2.
  cbn [bitmap set_nFreeFrames] in Hfree2.
  destruct (Z.eq_dec (Z.max off1 off2) off1) as [Heq|Hne].
  - rewrite Heq, Hhead in Hfree2. discriminate.
  - rewrite Htail in Hfree2 by lia. discriminate.
Qed.

Lemma get_frames_twice_disjoint_witness :
  snd first_single + 1 <= snd second_single \/
  snd second_single + 1 <= snd first_single.
Proof.
  apply (get_frames_twice_disjoint (mem one_pool) (pool0 one_pool) 1 1
           (fst (fst first_single)) (snd (fst first_single))
           (snd first_single)
           (fst (fst second_single)) (snd (fst second_single))
           (snd second_single)).
  - vm_compute. repeat split; discriminate.
  - vm_compute. discriminate.
  - vm_compute. discriminate.
  - lia.
  - lia.
  - reflexivity.
  - vm_compute. discriminate.
  - reflexivity.
  - vm_compute. discriminate.
Defined.

(** X7: a request for at least one frame never changes the state of the
    pool's last frame, and a request that succeeds asked for at most
    nframes - 1 frames. *)
Theorem get_frames_spares_last_frame (m : memory) (p : ContFramePool)
  (n : Z) (m' : memory) (p' : ContFramePool) (f : Z) :
  1 <= n -> word (nFreeFrames p) -> word (nframes p) -> 1 <= nframes p ->
  get_frames m p n = (m', p', f) ->
  m' (bitmap p + (nframes p - 1)) = m (bitmap p + (nframes p - 1)) /\
  (f <> 0 -> n <= nframes p - 1).
Proof.
  intros Hn Hfree Hnf H1 Hget.
  destruct (get_frames_spec m p n Hn Hfree)
    as [[E _]|(off & m1 & E & _ & (H0 & Hle & _) & (_ & _ & Hrest))];
    rewrite E in Hget; injection Hget as <- <- <-.
  - split; [reflexivity|]. intros H. contradiction.
  - rewrite (wrap_small (nframes p - 1)) in Hle by (unfold word in *; lia).
    split; [apply Hrest; lia|]. intros _. lia.
Qed.

Lemma get_frames_spares_last_frame_witness :
  mem after_get2 (bitmap (pool0 one_pool) + (nframes (pool0 one_pool) - 1))
  = mem one_pool (bitmap (pool0 one_pool) + (nframes (pool0 one_pool) - 1)) /\
  (513 <> 0 -> 2 <= nframes (pool0 one_pool) - 1).
Proof.
  apply (get_frames_spares_last_frame (mem one_pool) (pool0 one_pool) 2
           (mem after_get2) (pool0 after_get2) 513).
  - lia.
  - vm_compute. split; [discriminate|reflexivity].
  - vm_compute. split; [discriminate|reflexivity].
  - vm_compute. discriminate.
  - reflexivity.
Defined.

(** X8: when the counter allows the request and some run of n FREE frames
    lies inside the scanned offsets, get_frames succeeds, at the first such
    run, which starts no later than the given one. *)
Theorem get_frames_finds_existing_run (m : memory) (p : ContFramePool)
  (n o : Z) :
  1 <= n -> n <= nFreeFrames p < modulus ->
  0 <= o -> o + n <= wrap (nframes p - 1) -> all_free m p o n ->
  exists off m',
    off <= o /\ first_fit m p n off /\
    get_frames m p n
    = (m', set_nFreeFrames p (nFreeFrames p - n),
       wrap (base_frame_no p + off)) /\
    marks_run m p n off m'.
Proof.
  intros Hn [Hge Hlt] Ho Hon Hrun.
  destruct (get_frames_spec m p n Hn)
    as [[_ [Hfew|Hno]]|(off & m' & E & _ & Hfit & Hmarks)].
  - unfold word. lia.
  - lia.
  - exfalso. exact (Hno o Ho Hon Hrun).
  - exists off, m'. split; [|auto].
    destruct Hfit as (_ & _ & _ & Hfirst).
    destruct (Z_le_gt_dec off o) as [Hle|Hgt]; [exact Hle|].
    exfalso. apply (Hfirst o); [lia|exact Hrun].
Qed.

Lemma get_frames_finds_existing_run_witness :
  exists off m',
    off <= 2 /\ first_fit (mem one_pool) (pool0 one_pool) 1 off /\
    get_frames (mem one_pool) (pool0 one_pool) 1
    = (m', set_nFreeFrames (pool0 one_pool)
             (nFreeFrames (pool0 one_pool) - 1),
       wrap (base_frame_no (pool0 one_pool) + off)) /\
    marks_run (mem one_pool) (pool0 one_pool) 1 off m'.
Proof.
  apply (get_frames_finds_existing_run (mem one_pool) (pool0 one_pool) 1 2).
  - lia.
  - vm_compute. split; [discriminate|reflexivity].
  - lia.
  - vm_compute. discriminate.
  - intros j Hj. assert (j = 2) as -> by lia. reflexivity.
Defined.

(** X9: when no run of n FREE frames lies inside the scanned offsets,
    get_frames returns 0 and changes nothing, however many frames the
    counter says are free. *)
Theorem get_frames_fails_without_run (m : memory) (p : ContFramePool)
  (n : Z) :
  1 <= n -> word (nFreeFrames p) ->
  (forall o, 0 <= o -> o + n <= wrap (nframes p - 1) ->
     ~ all_free m p o n) ->
  get_frames m p n = (m, p, 0).
Proof.
  intros Hn Hfree Hno.
  destruct (get_frames_spec m p n Hn Hfree)
    as [[E _]|(off & m' & _ & _ & (H0 & Hle & Hrun & _) & _)];
    [exact E|].
  exfalso. exact (Hno off H0 Hle Hrun).
Qed.

Lemma get_frames_fails_without_run_witness :
  get_frames (mem one_pool) (pool0 one_pool) 3
  = (mem one_pool, pool0 one_pool, 0).
Proof.
  apply (get_frames_fails_without_run (mem one_pool) (pool0 one_pool) 3).
  - lia.
  - vm_compute. split; [discriminate|reflexivity].
  - intros o Ho Hon Hall.
    change (wrap (nframes (pool0 one_pool) - 1)) with 3 in Hon.
    assert (o = 0) as -> by lia.
    specialize (Hall 0 ltac:(lia)). vm_compute in Hall. discriminate.
Defined.

Lemma scan_zero m p steps : forall i,
  0 <= i -> i + Z.of_nat steps < modulus ->
  ((forall j, i <= j < i + Z.of_nat steps -> m (bitmap p + j) = FREE) ->
   scan steps m p 0 i 0 i = (m, p, 0)) /\
  ((exists j, i <= j < i + Z.of_nat steps /\ m (bitmap p + j) <> FREE) ->
   scan steps m p 0 i 0 i
   = (store m (bitmap p + 0) HEAD,
      set_nFreeFrames p (wrap (nFreeFrames p - 1)),
      wrap (wrap (base_frame_no p) + 0))).
Proof.
  induction steps as [|steps IH]; intros i Hi Hfit.
  - split; [reflexivity|]. intros (j & Hj & _). lia.
  - cbn [scan].
    destruct (m (bitmap p + i) =? FREE) eqn:Ei.
    + apply Z.eqb_eq in Ei.
      rewrite (wrap_small (i + 1)) by (unfold word; lia).
      replace (if i =? 0 then i else 0) with 0
        by (destruct (i =? 0) eqn:E0; [apply Z.eqb_eq in E0; lia|reflexivity]).
      replace (i + 1 =? 0) with false by (symmetry; apply Z.eqb_neq; lia).
      destruct (IH (i + 1)) as [IHfree IHbusy]; [lia|lia|].
      split.
      * intros Hall. apply IHfree. intros j Hj. apply Hall. lia.
      * intros (j & Hj & Hbusy). apply IHbusy. exists j. split; [|exact Hbusy].
        destruct (Z.eq_dec j i) as [->|Hne]; [contradiction|lia].
    + apply Z.eqb_neq in Ei. cbn [Z.eqb Z.sub Z.opp Z.add Z.to_nat
                                   mark_allocated].
      split; [|reflexivity].
      intros Hall. exfalso. apply Ei. apply Hall. lia.
Qed.

(** X10: a request for zero frames.  With a counter of 0, or with every
    scanned frame FREE, get_frames(0) returns 0 and changes nothing; in every
    other case it overwrites the state of the pool's first frame with HEAD,
    whatever it was, lowers the counter by one and returns base_frame_no. *)
Theorem get_frames_zero (m : memory) (p : ContFramePool) :
  word (nFreeFrames p) ->
  (nFreeFrames p = 0 \/
   (forall j, 0 <= j < wrap (nframes p - 1) -> m (bitmap p + j) = FREE) ->
   get_frames m p 0 = (m, p, 0)) /\
  (nFreeFrames p <> 0 ->
   (exists j, 0 <= j < wrap (nframes p - 1) /\ m (bitmap p + j) <> FREE) ->
   get_frames m p 0
   = (store m (bitmap p) HEAD,
      set_nFreeFrames p (wrap (nFreeFrames p - 1)),
      wrap (base_frame_no p))).
Proof.
  intros [Hf0 Hf]. unfold get_frames.
  pose proof (wrap_word (nframes p - 1)) as [Hs0 Hs].
  destruct (scan_zero m p (Z.to_nat (wrap (nframes p - 1))) 0)
    as [Hfree Hbusy]; [lia|lia|].
  rewrite Z2Nat.id in Hfree, Hbusy by lia.
  replace (nFreeFrames p <? 0) with false by (symmetry; apply Z.ltb_ge; lia).
  rewrite orb_false_r. split.
  - intros [H0|Hall].
    + rewrite H0. reflexivity.
    + destruct (nFreeFrames p =? 0); [reflexivity|]. apply Hfree.
      intros j Hj. apply Hall. lia.
  - intros Hne Hex.
    replace (nFreeFrames p =? 0) with false
      by (symmetry; apply Z.eqb_neq; exact Hne).
    rewrite Hbusy by (destruct Hex as (j & Hj & Hb); exists j; split;
                      [lia|exact Hb]).
    rewrite Z.add_0_r. f_equal. rewrite Z.add_0_r.
    unfold wrap. apply Z.mod_mod. rewrite modulus_eq. lia.
Qed.

Lemma get_frames_zero_witness :
  (nFreeFrames (pool0 one_pool) = 0 \/
   (forall j, 0 <= j < wrap (nframes (pool0 one_pool) - 1) ->
      mem one_pool (bitmap (pool0 one_pool) + j) = FREE) ->
   get_frames (mem one_pool) (pool0 one_pool) 0
   = (mem one_pool, pool0 one_pool, 0)) /\
  (nFreeFrames (pool0 one_pool) <> 0 ->
   (exists j, 0 <= j < wrap (nframes (pool0 one_pool) - 1) /\
      mem one_pool (bitmap (pool0 one_pool) + j) <> FREE) ->
   get_frames (mem one_pool) (pool0 one_pool) 0
   = (store (mem one_pool) (bitmap (pool0 one_pool)) HEAD,
      set_nFreeFrames (pool0 one_pool)
        (wrap (nFreeFrames (pool0 one_pool) - 1)),
      wrap (base_frame_no (pool0 one_pool)))).
Proof.
  apply (get_frames_zero (mem one_pool) (pool0 one_pool)).
  vm_compute. split; [discriminate|reflexivity].
Defined.

(** ** release_frames: the two ways a call goes *)

(** X11: release_frames returns exactly when the test of no pool in the list
    selects the frame, and then it has changed nothing. *)
Theorem release_frames_unowned (fuel : nat) (f : Z) (s : kernel) :
  (Forall (fun p => release_selects p f = false) (pool_head s) ->
   release_frames fuel f s = Returns s) /\
  (forall s', release_frames fuel f s = Returns s' ->
   s' = s /\ Forall (fun p => release_selects p f = false) (pool_head s)).
Proof.
  unfold release_frames. split.
  - intros Hall. rewrite release_search_no_owner by exact Hall.
    destruct s; reflexivity.
  - intros s' H.
    destruct (release_search fuel (mem s) (pool_head s) f)
      as [[m ps]| |[m ps]] eqn:E; try discriminate.
    injection H as <-.
    apply release_search_returns in E as (-> & -> & Hall).
    split; [destruct s; reflexivity|exact Hall].
Qed.

Lemma wrap_add_l x y : wrap (wrap x + y) = wrap (x + y).
Proof. unfold wrap. apply Zplus_mod_idemp_l. Qed.

Lemma release_walk_effect fuel : forall tBitmap m position x,
  0 <= position -> position + Z.of_nat fuel <= modulus ->
  exists m',
    release_walk fuel tBitmap m position (wrap x)
    = Running (m', wrap (x + Z.of_nat fuel)) /\
    (forall a, tBitmap + position <= a < tBitmap + position + Z.of_nat fuel ->
       m' a = FREE) /\
    (forall a,
       ~ (tBitmap + position <= a < tBitmap + position + Z.of_nat fuel) ->
       m' a = m a).
Proof.
  induction fuel as [|fuel IH]; intros bm m pos x Hpos Hfit.
  - exists m. cbn [release_walk Z.of_nat]. rewrite Z.add_0_r.
    split; [reflexivity|]. split; [intros a Ha; lia|reflexivity].
  - cbn [release_walk]. rewrite walk_test_true, wrap_add_l.
    assert (Hcases : fuel = 0%nat \/ wrap (pos + 1) = pos + 1).
    { destruct fuel; [left; reflexivity|right].
      apply wrap_small. unfold word. lia. }
    destruct (IH bm (store m (bm + pos) FREE) (wrap (pos + 1)) (x + 1))
      as (m' & E & Hin & Hout).
    + apply wrap_word.
    + destruct Hcases as [-> | ->]; [|lia].
      pose proof (wrap_word (pos + 1)) as Hw. unfold word in Hw.
      cbn [Z.of_nat]. lia.
    + exists m'. split; [|split].
      * rewrite E. do 2 f_equal. f_equal. lia.
      * intros a Ha. destruct (Z.eq_dec a (bm + pos)) as [->|Hne].
        -- rewrite Hout; [apply store_same|].
           destruct Hcases as [-> | ->]; cbn [Z.of_nat]; lia.
        -- apply Hin. destruct Hcases as [-> | ->]; [lia|lia].
      * intros a Ha. rewrite Hout; [apply store_other; lia|].
        destruct Hcases as [-> | ->]; cbn [Z.of_nat]; lia.
Qed.

Lemma release_search_skip fuel m f rest : forall ps,
  Forall (fun p => release_selects p f = false) ps ->
  release_search fuel m (ps ++ rest) f
  = match release_search fuel m rest f with
    | Returns (m', r) => Returns (m', ps ++ r)
    | Running (m', r) => Running (m', ps ++ r)
    | Fatal => Fatal
    end.
Proof.
  induction ps as [|q ps IH]; intros Hall.
  - cbn [app]. destruct (release_search fuel m rest f) as [[? ?]| |[? ?]];
      reflexivity.
  - inversion Hall as [|? ? Hq Hps]; subst.
    cbn [app release_search]. rewrite Hq, (IH Hps).
    destruct (release_search fuel m rest f) as [[? ?]| |[? ?]]; reflexivity.
Qed.

(** X12: when the first pool whose test selects the frame is [p], the call
    does not return: with [fuel] iterations of its walk done (and the
    position not yet wrapped) the counter of [p] has gone up by fuel + 1, the
    fuel + 1 bytes from the released frame's own byte on are FREE, and no
    other byte and no other pool has changed. *)
Theorem release_frames_runs_away (fuel : nat) (f : Z) (s : kernel)
  (ps1 : list ContFramePool) (p : ContFramePool)
  (ps2 : list ContFramePool) :
  pool_head s = ps1 ++ p :: ps2 ->
  Forall (fun q => release_selects q f = false) ps1 ->
  release_selects p f = true ->
  wrap (f - base_frame_no p) + 1 + Z.of_nat fuel <= modulus ->
  exists m',
    release_frames fuel f s
    = Running
        (mkKernel m'
           (ps1 ++ set_nFreeFrames p
                     (wrap (nFreeFrames p + 1 + Z.of_nat fuel)) :: ps2)) /\
    (forall a, bitmap p + wrap (f - base_frame_no p) <= a
               <= bitmap p + wrap (f - base_frame_no p) + Z.of_nat fuel ->
       m' a = FREE) /\
    (forall a, ~ (bitmap p + wrap (f - base_frame_no p) <= a
                  <= bitmap p + wrap (f - base_frame_no p) + Z.of_nat fuel) ->
       m' a = mem s a).
Proof.
  intros Hhead Hskip Hsel Hfit. unfold release_frames.
  rewrite Hhead, (release_search_skip _ _ _ _ _ Hskip).
  cbn [release_search]. rewrite Hsel.
  set (pos := wrap (f - base_frame_no p)) in *.
  pose proof (wrap_word (f - base_frame_no p)) as Hpos.
  fold pos in Hpos. unfold word in Hpos.
  assert (Hcases : fuel = 0%nat \/ wrap (pos + 1) = pos + 1).
  { destruct fuel; [left; reflexivity|right].
    apply wrap_small. unfold word. lia. }
  destruct (release_walk_effect fuel (bitmap p)
              (store (mem s) (bitmap p + pos) FREE) (wrap (pos + 1))
              (nFreeFrames p + 1))
    as (m' & E & Hin & Hout).
  - apply wrap_word.
  - destruct Hcases as [-> | ->]; [|lia].
    pose proof (wrap_word (pos + 1)) as Hw. unfold word in Hw.
    cbn [Z.of_nat]. lia.
  - rewrite E. exists m'. split; [reflexivity|]. split.
    + intros a Ha. destruct (Z.eq_dec a (bitmap p + pos)) as [->|Hne].
      * rewrite Hout; [apply store_same|].
        destruct Hcases as [-> | ->]; cbn [Z.of_nat]; lia.
      * apply Hin. destruct Hcases as [-> | ->]; [cbn [Z.of_nat] in Ha|]; lia.
    + intros a Ha. rewrite Hout; [apply store_other; lia|].
      destruct Hcases as [-> | ->]; cbn [Z.of_nat]; lia.
Qed.

Lemma release_frames_runs_away_witness :
  exists m',
    release_frames 3 513 after_get2
    = Running
        (mkKernel m'
           ([] ++ set_nFreeFrames (pool0 after_get2)
                    (wrap (nFreeFrames (pool0 after_get2) + 1 + Z.of_nat 3))
               :: [])) /\
    (forall a,
       bitmap (pool0 after_get2)
       + wrap (513 - base_frame_no (pool0 after_get2)) <= a
       <= bitmap (pool0 after_get2)
          + wrap (513 - base_frame_no (pool0 after_get2)) + Z.of_nat 3 ->
       m' a = FREE) /\
    (forall a,
       ~ (bitmap (pool0 after_get2)
          + wrap (513 - base_frame_no (pool0 after_get2)) <= a
          <= bitmap (pool0 after_get2)
             + wrap (513 - base_frame_no (pool0 after_get2)) + Z.of_nat 3) ->
       m' a = mem after_get2 a).
Proof.
  apply (release_frames_runs_away 3 513 after_get2 [] (pool0 after_get2) []).
  - reflexivity.
  - constructor.
  - reflexivity.
  - vm_compute. discriminate.
Defined.

(** ** The constructor *)

Lemma new_ContFramePool_no_info FRAME_SIZE fuel b n i s :
  word i -> 1 <= n <= wrap (FRAME_SIZE * 8) ->
  let bm := wrap ((if i =? 0 then b else i) * FRAME_SIZE) in
  exists m',
    new_ContFramePool FRAME_SIZE (S fuel) b n i 0 s
    = Returns (mkKernel m'
                 (pool_head s
                  ++ [mkPool b n (if i =? 0 then n - 1 else n) i 0 bm])) /\
    (forall j, 0 <= j < n ->
       m' (bm + j) = if (i =? 0) && (j =? 0) then OWN_FRAME else FREE) /\
    (forall a, ~ (bm <= a < bm + n) -> m' a = mem s a).
Proof.
  intros Hi [Hn Hcap]. cbv zeta.
  pose proof (wrap_word (FRAME_SIZE * 8)) as Hw. unfold word in Hw, Hi.
  unfold new_ContFramePool.
  replace (n <=? wrap (FRAME_SIZE * 8)) with true
    by (symmetry; apply Z.leb_le; exact Hcap).
  destruct (i =? 0) eqn:Ei; cbv beta iota zeta.
  - rewrite info_loop_none by (rewrite modulus_eq; lia).
    rewrite (wrap_small (n - 1)) by (unfold word; lia).
    set (bm := wrap (b * FRAME_SIZE)).
    destruct (fill_free_spec (Z.to_nat n) bm (mem s) 0) as [Hin Hout];
      [lia|lia|].
    eexists. split; [reflexivity|]. split.
    + intros j Hj. cbn [andb]. destruct (j =? 0) eqn:Ej.
      * apply Z.eqb_eq in Ej. subst j. apply store_same.
      * apply Z.eqb_neq in Ej. rewrite store_other by lia. apply Hin. lia.
    + intros a Ha. rewrite store_other by lia. apply Hout. lia.
  - apply Z.eqb_neq in Ei.
    rewrite info_loop_none by (unfold word; lia).
    set (bm := wrap (i * FRAME_SIZE)).
    destruct (fill_free_spec (Z.to_nat n) bm (mem s) 0) as [Hin Hout];
      [lia|lia|].
    eexists. split; [reflexivity|]. split.
    + intros j Hj. cbn [andb]. apply Hin. lia.
    + intros a Ha. apply Hout. lia.
Qed.

(** X13: built with no info frames over 1 to FRAME_SIZE * 8 frames, a pool is
    appended at the end of the pool list, the pools before it untouched; its
    state bytes sit at (base_frame_no or info_frame_no) * FRAME_SIZE and all
    say FREE, except that a pool keeping its map in its own range has its
    first frame reserved and counts one frame fewer; no other byte of memory
    changes. *)
Theorem new_ContFramePool_fresh (FRAME_SIZE : Z) (fuel : nat) (b n i : Z)
  (s : kernel) :
  word i -> 1 <= n <= wrap (FRAME_SIZE * 8) ->
  let bm := wrap ((if i =? 0 then b else i) * FRAME_SIZE) in
  exists m',
    new_ContFramePool FRAME_SIZE (S fuel) b n i 0 s
    = Returns (mkKernel m'
                 (pool_head s
                  ++ [mkPool b n (if i =? 0 then n - 1 else n) i 0 bm])) /\
    (forall j, 0 <= j < n ->
       m' (bm + j) = if (i =? 0) && (j =? 0) then OWN_FRAME else FREE) /\
    (forall a, ~ (bm <= a < bm + n) -> m' a = mem s a).
Proof. exact (new_ContFramePool_no_info FRAME_SIZE fuel b n i s). Qed.

Lemma new_ContFramePool_fresh_witness :
  let bm := wrap ((if 0 =? 0 then 512 else 0) * 4096) in
  exists m',
    new_ContFramePool 4096 1 512 4 0 0 boot
    = Returns (mkKernel m'
                 (pool_head boot
                  ++ [mkPool 512 4 (if 0 =? 0 then 4 - 1 else 4) 0 0 bm])) /\
    (forall j, 0 <= j < 4 ->
       m' (bm + j) = if (0 =? 0) && (j =? 0) then OWN_FRAME else FREE) /\
    (forall a, ~ (bm <= a < bm + 4) -> m' a = mem boot a).
Proof.
  apply (new_ContFramePool_fresh 4096 0 512 4 0 boot).
  - vm_compute. split; [discriminate|reflexivity].
  - vm_compute. split; discriminate.
Defined.

Lemma info_loop_not_fatal fuel : forall bm m nFree i bound,
  info_loop fuel bm m nFree i bound <> Fatal.
Proof.
  induction fuel as [|fuel IH]; intros bm m nFree i bound;
    cbn [info_loop]; [discriminate|].
  destruct (wrap i <=? bound); [apply IH|discriminate].
Qed.

(** X14: the capacity assert is the constructor's only fatal path: it fails
    fatally exactly when it is asked for more than FRAME_SIZE * 8 frames. *)
Theorem new_ContFramePool_fatal_iff (FRAME_SIZE : Z) (fuel : nat)
  (b n i ni : Z) (s : kernel) :
  new_ContFramePool FRAME_SIZE fuel b n i ni s = Fatal
  <-> wrap (FRAME_SIZE * 8) < n.
Proof.
  unfold new_ContFramePool.
  destruct (n <=? wrap (FRAME_SIZE * 8)) eqn:Ecap.
  - apply Z.leb_le in Ecap. split; [|lia].
    intros H. exfalso.
    destruct (i =? 0); cbv beta iota zeta in H.
    + destruct (info_loop fuel _ _ _ _ _) as [[? ?]| |[? ?]] eqn:E;
        try discriminate.
      exact (info_loop_not_fatal _ _ _ _ _ _ E).
    + destruct (info_loop fuel _ _ _ _ _) as [[? ?]| |[? ?]] eqn:E;
        try discriminate.
      exact (info_loop_not_fatal _ _ _ _ _ _ E).
  - apply Z.leb_gt in Ecap. split; [intros _; exact Ecap|reflexivity].
Qed.

Lemma to_int_small x : 0 <= x < modulus / 2 -> to_int x = x.
Proof.
  intros Hx. unfold to_int. cbv zeta.
  assert (Hh : modulus / 2 = 2147483648) by reflexivity.
  rewrite wrap_small by (unfold word; rewrite modulus_eq; lia).
  replace (x <? modulus / 2) with true by (symmetry; apply Z.ltb_lt; lia).
  reflexivity.
Qed.

Lemma info_loop_S fuel bm m nFree i bound :
  info_loop (S fuel) bm m nFree i bound
  = if wrap i <=? bound
    then info_loop fuel bm (store m (bm + i) FREE) (wrap (nFree - 1))
                   (to_int (i + 1)) bound
    else Returns (m, nFree).
Proof. reflexivity. Qed.

Lemma info_loop_runs bm bound k : forall c m x,
  0 <= c -> c + Z.of_nat k = bound + 1 -> bound + 1 < modulus / 2 ->
  exists m',
    info_loop (S k) bm m (wrap x) c bound
    = Returns (m', wrap (x - Z.of_nat k)) /\
    (forall a, bm + c <= a <= bm + bound -> m' a = FREE) /\
    (forall a, ~ (bm + c <= a <= bm + bound) -> m' a = m a).
Proof.
  assert (Hh : modulus / 2 = 2147483648) by reflexivity.
  induction k as [|k IH]; intros c m x Hc Hk Hb; rewrite info_loop_S.
  - rewrite wrap_small by (unfold word; rewrite modulus_eq; lia).
    replace (c <=? bound) with false by (symmetry; apply Z.leb_gt; lia).
    exists m. cbn [Z.of_nat]. rewrite Z.sub_0_r. split; [reflexivity|].
    split; [intros a Ha; lia|reflexivity].
  - rewrite (wrap_small c) by (unfold word; rewrite modulus_eq; lia).
    replace (c <=? bound) with true by (symmetry; apply Z.leb_le; lia).
    rewrite to_int_small by lia. rewrite wrap_sub_l.
    destruct (IH (c + 1) (store m (bm + c) FREE) (x - 1))
      as (m' & E & Hin & Hout); try lia.
    exists m'. split; [|split].
    + rewrite E.
      replace (x - 1 - Z.of_nat k) with (x - Z.of_nat (S k)) by lia.
      reflexivity.
    + intros a Ha. destruct (Z.eq_dec a (bm + c)) as [->|Hne].
      * rewrite Hout by lia. apply store_same.
      * apply Hin. lia.
    + intros a Ha. rewrite Hout by lia. apply store_other. lia.
Qed.

Lemma wrap_shift_differs x k : word x -> 1 <= k < modulus -> wrap (x - k) <> x.
Proof.
  unfold word, wrap. rewrite modulus_eq. intros Hx Hk.
  Z.div_mod_to_equations. lia.
Qed.

(** X15: given k >= 1 info frames to reserve, the constructor lowers the
    counter k times but writes the FREE byte where it reserves, so the new
    pool starts with a counter that is k below the number of its FREE
    frames. *)
Theorem new_ContFramePool_info_frames (FRAME_SIZE : Z) (b n i k : Z)
  (s : kernel) :
  1 <= n <= wrap (FRAME_SIZE * 8) -> 0 <= i -> 1 <= k ->
  (if i =? 0 then 1 else i) + k < modulus / 2 ->
  exists m' q,
    new_ContFramePool FRAME_SIZE (S (Z.to_nat k)) b n i k s
    = Returns (mkKernel m' (pool_head s ++ [q])) /\
    base_frame_no q = b /\ nframes q = n /\
    nFreeFrames q = wrap (n - (if i =? 0 then 1 else 0) - k) /\
    count_free m' q = n - (if i =? 0 then 1 else 0) /\
    ~ counted m' q.
Proof.
  intros [Hn Hcap] Hi Hk Hsmall.
  assert (Hh : modulus / 2 = 2147483648) by reflexivity.
  pose proof (wrap_word (FRAME_SIZE * 8)) as Hw. unfold word in Hw.
  unfold new_ContFramePool.
  replace (n <=? wrap (FRAME_SIZE * 8)) with true
    by (symmetry; apply Z.leb_le; exact Hcap).
  destruct (i =? 0) eqn:Ei; cbv beta iota zeta.
  - set (bm := wrap (b * FRAME_SIZE)).
    destruct (fill_free_spec (Z.to_nat n) bm (mem s) 0) as [Hfill _];
      [lia|lia|].
    rewrite (to_int_small 1) by lia.
    rewrite (wrap_small (1 + k - 1)) by (unfold word; rewrite modulus_eq; lia).
    destruct (info_loop_runs bm (1 + k - 1) (Z.to_nat k) 1
                (store (fill_free (Z.to_nat n) bm (mem s) 0) (bm + 0)
                   OWN_FRAME) (n - 1))
      as (m' & E & Hin & Hout); try lia.
    rewrite E. rewrite Z2Nat.id by lia.
    eexists _, _. split; [reflexivity|].
    cbn [base_frame_no nframes nFreeFrames].
    assert (Hcount : count_free m' (mkPool b n (wrap (n - 1 - k)) i k bm)
                     = n - 1).
    { unfold count_free. cbn [nframes bitmap].
      rewrite (count_free_from_ext _
                 (fun x => if x =? bm then OWN_FRAME else FREE) m').
      - rewrite (count_free_from_taken _ (fun _ => FREE) _ bm 0 1); try lia.
        + rewrite count_free_from_all by reflexivity. lia.
        + intros x Hx. assert (x = bm) as -> by lia.
          rewrite Z.eqb_refl. split; [reflexivity|discriminate].
        + intros x Hx.
          replace (x =? bm) with false by (symmetry; apply Z.eqb_neq; lia).
          reflexivity.
      - intros x Hx. destruct (x =? bm) eqn:Ex.
        + apply Z.eqb_eq in Ex. subst x.
          rewrite Hout by lia. unfold store.
          rewrite Z.add_0_r, Z.eqb_refl. reflexivity.
        + apply Z.eqb_neq in Ex.
          destruct (Z_le_gt_dec x (bm + (1 + k - 1))) as [Hle|Hgt].
          * apply Hin. lia.
          * rewrite Hout by lia. rewrite store_other by lia.
            apply Hfill. lia. }
    repeat split; [exact Hcount|].
    unfold counted. rewrite Hcount. cbn [nFreeFrames].
    rewrite Hh in Hsmall. rewrite modulus_eq in Hw.
    apply wrap_shift_differs; unfold word; rewrite modulus_eq; lia.
  - apply Z.eqb_neq in Ei.
    set (bm := wrap (i * FRAME_SIZE)).
    destruct (fill_free_spec (Z.to_nat n) bm (mem s) 0) as [Hfill _];
      [lia|lia|].
    rewrite (to_int_small i) by lia.
    rewrite (wrap_small (i + k - 1)) by (unfold word; rewrite modulus_eq; lia).
    destruct (info_loop_runs bm (i + k - 1) (Z.to_nat k) i
                (fill_free (Z.to_nat n) bm (mem s) 0) n)
      as (m' & E & Hin & Hout); try lia.
    rewrite (wrap_small n) in E by (unfold word; lia).
    rewrite E. rewrite Z2Nat.id by lia.
    eexists _, _. split; [reflexivity|].
    cbn [base_frame_no nframes nFreeFrames].
    assert (Hcount : count_free m' (mkPool b n (wrap (n - k)) i k bm) = n).
    { unfold count_free. cbn [nframes bitmap].
      rewrite count_free_from_all; [lia|].
      intros x Hx.
      destruct (Z_le_gt_dec (bm + i) x) as [Hlo|Hlo];
        [destruct (Z_le_gt_dec x (bm + (i + k - 1))) as [Hhi|Hhi]|].
      - apply Hin. lia.
      - rewrite Hout by lia. apply Hfill. lia.
      - rewrite Hout by lia. apply Hfill. lia. }
    rewrite Z.sub_0_r. repeat split; [exact Hcount|].
    unfold counted. rewrite Hcount. cbn [nFreeFrames].
    rewrite Hh in Hsmall. rewrite modulus_eq in Hw.
    apply wrap_shift_differs; unfold word; rewrite modulus_eq; lia.
Qed.

Lemma new_ContFramePool_info_frames_witness :
  exists m' q,
    new_ContFramePool 4096 (S (Z.to_nat 1)) 512 4 0 1 boot
    = Returns (mkKernel m' (pool_head boot ++ [q])) /\
    base_frame_no q = 512 /\ nframes q = 4 /\
    nFreeFrames q = wrap (4 - (if 0 =? 0 then 1 else 0) - 1) /\
    count_free m' q = 4 - (if 0 =? 0 then 1 else 0) /\
    ~ counted m' q.
Proof.
  apply (new_ContFramePool_info_frames 4096 512 4 0 1 boot).
  - vm_compute. split; discriminate.
  - lia.
  - lia.
  - vm_compute. reflexivity.
Defined.

(** ** Several pools, and a pool from construction to its first request *)



(** X17: a pool built over N frames with its map in its own first frame
    answers a first request for 1 to N - 2 frames with the run that starts at
    base_frame_no + 1, and a request for N - 1 frames or more with 0 and no
    change, although N - 1 of its frames are FREE. *)
Theorem fresh_pool_first_request (FRAME_SIZE : Z) (fuel : nat) (b N : Z)
  (s : kernel) :
  1 <= N <= wrap (FRAME_SIZE * 8) ->
  exists m' q,
    new_ContFramePool FRAME_SIZE (S fuel) b N 0 0 s
    = Returns (mkKernel m' (pool_head s ++ [q])) /\
    count_free m' q = N - 1 /\
    (forall n, 1 <= n <= N - 2 ->
       exists m2,
         get_frames m' q n
         = (m2, set_nFreeFrames q (N - 1 - n), wrap (b + 1)) /\
         marks_run m' q n 1 m2) /\
    (forall n, 1 <= n -> N - 1 <= n -> get_frames m' q n = (m', q, 0)).
Proof.
  intros HN.
  pose proof (wrap_word (FRAME_SIZE * 8)) as Hw. unfold word in Hw.
  destruct (new_ContFramePool_no_info FRAME_SIZE fuel b N 0 s)
    as (m' & E & Hbytes & _);
    [unfold word; rewrite modulus_eq; lia|exact HN|].
  cbn [Z.eqb] in E, Hbytes. cbv beta iota in E.
  set (bm := wrap (b * FRAME_SIZE)) in *.
  set (q := mkPool b N (N - 1) 0 0 bm) in *.
  exists m', q. split; [exact E|].
  assert (Hown : m' (bitmap q + 0) <> FREE).
  { cbn [q bitmap]. rewrite Hbytes by lia. cbn. discriminate. }
  assert (Hfree : forall j, 1 <= j < N -> m' (bitmap q + j) = FREE).
  { intros j Hj. cbn [q bitmap]. rewrite Hbytes by lia.
    replace (j =? 0) with false by (symmetry; apply Z.eqb_neq; lia).
    reflexivity. }
  assert (Hscan : wrap (nframes q - 1) = N - 1).
  { cbn [q nframes]. apply wrap_small. unfold word. lia. }
  assert (Hword : word (nFreeFrames q)).
  { cbn [q nFreeFrames]. unfold word. lia. }
  split; [|split].
  - unfold count_free. cbn [q nframes bitmap].
    rewrite (count_free_from_ext _
               (fun x => if x =? bm then OWN_FRAME else FREE) m').
    + rewrite (count_free_from_taken _ (fun _ => FREE) _ bm 0 1); try lia.
      * rewrite count_free_from_all by reflexivity. lia.
      * intros x Hx. assert (x = bm) as -> by lia.
        rewrite Z.eqb_refl. split; [reflexivity|discriminate].
      * intros x Hx.
        replace (x =? bm) with false by (symmetry; apply Z.eqb_neq; lia).
        reflexivity.
    + intros x Hx. replace x with (bm + (x - bm)) at 1 by lia.
      rewrite Hbytes by lia.
      destruct (x =? bm) eqn:Ex.
      * apply Z.eqb_eq in Ex.
        replace (x - bm =? 0) with true by (symmetry; apply Z.eqb_eq; lia).
        reflexivity.
      * apply Z.eqb_neq in Ex.
        replace (x - bm =? 0) with false by (symmetry; apply Z.eqb_neq; lia).
        reflexivity.
  - intros n Hn.
    destruct (get_frames_spec m' q n ltac:(lia) Hword)
      as [[_ [Hfew|Hno]]|(off & m2 & E2 & _ & Hfit & Hmarks)].
    + cbn [q nFreeFrames] in Hfew. lia.
    + exfalso. apply (Hno 1); [lia|rewrite Hscan; lia|].
      intros j Hj. apply Hfree. lia.
    + assert (off = 1) as ->.
      { destruct Hfit as (H0 & Hle & Hrun & Hfirst).
        destruct (Z.eq_dec off 0) as [->|Hne0].
        - exfalso. apply Hown. apply Hrun. lia.
        - destruct (Z_le_gt_dec off 1) as [Hle1|Hgt1]; [lia|].
          exfalso. apply (Hfirst 1); [lia|].
          intros j Hj. apply Hfree. lia. }
      exists m2. split; [exact E2|exact Hmarks].
  - intros n Hn HnN.
    destruct (get_frames_spec m' q n Hn Hword)
      as [[E2 _]|(off & m2 & _ & _ & (H0 & Hle & Hrun & _) & _)];
      [exact E2|].
    exfalso. rewrite Hscan in Hle.
    assert (off = 0) as -> by lia.
    apply Hown. apply Hrun. lia.
Qed.

Lemma fresh_pool_first_request_witness :
  exists m' q,
    new_ContFramePool 4096 1 512 4 0 0 boot
    = Returns (mkKernel m' (pool_head boot ++ [q])) /\
    count_free m' q = 4 - 1 /\
    (forall n, 1 <= n <= 4 - 2 ->
       exists m2,
         get_frames m' q n
         = (m2, set_nFreeFrames q (4 - 1 - n), wrap (512 + 1)) /\
         marks_run m' q n 1 m2) /\
    (forall n, 1 <= n -> 4 - 1 <= n -> get_frames m' q n = (m', q, 0)).
Proof.
  apply (fresh_pool_first_request 4096 0 512 4 boot).
  vm_compute. split; discriminate.
Defined.

(** ** needed_info_frames *)

Lemma needed_info_frames_quotient FRAME_SIZE n :
  0 < FRAME_SIZE -> word n ->
  needed_info_frames FRAME_SIZE n = (n + FRAME_SIZE - 1) / FRAME_SIZE.
Proof.
  intros HF [Hn0 Hn]. unfold needed_info_frames.
  pose proof (Z.div_mod n FRAME_SIZE ltac:(lia)) as Hdm.
  pose proof (Z.mod_pos_bound n FRAME_SIZE HF) as Hr.
  assert (Hq : 0 <= n / FRAME_SIZE) by (apply Z.div_pos; lia).
  rewrite wrap_small; [apply ceiling_quotient; lia|].
  unfold word. destruct (0 <? n mod FRAME_SIZE) eqn:E.
  - apply Z.ltb_lt in E. nia.
  - nia.
Qed.

(** X18: needed_info_frames grows with the number of frames, is 0 only for
    no frames at all, and is at most 8 for every frame count that the
    constructor's capacity assert lets through. *)
Theorem needed_info_frames_monotone (FRAME_SIZE n n' : Z) :
  0 < FRAME_SIZE -> word n -> word n' -> n <= n' ->
  needed_info_frames FRAME_SIZE n <= needed_info_frames FRAME_SIZE n' /\
  (needed_info_frames FRAME_SIZE n = 0 <-> n = 0) /\
  (n' <= FRAME_SIZE * 8 -> needed_info_frames FRAME_SIZE n' <= 8).
Proof.
  intros HF Hn Hn' Hle.
  rewrite !needed_info_frames_quotient by assumption.
  destruct Hn as [Hn0 _]. split; [|split].
  - apply Z.div_le_mono; lia.
  - split.
    + intros H0.
      pose proof (Z.div_mod (n + FRAME_SIZE - 1) FRAME_SIZE ltac:(lia)) as Hdm.
      pose proof (Z.mod_pos_bound (n + FRAME_SIZE - 1) FRAME_SIZE HF) as Hr.
      rewrite H0 in Hdm. lia.
    + intros ->. apply Z.div_small. lia.
  - intros Hcap.
    assert (H9 : (n' + FRAME_SIZE - 1) / FRAME_SIZE < 9).
    { apply Z.div_lt_upper_bound; lia. }
    lia.
Qed.

Lemma needed_info_frames_monotone_witness :
  needed_info_frames 4096 4096 <= needed_info_frames 4096 4097 /\
  (needed_info_frames 4096 4096 = 0 <-> 4096 = 0) /\
  (4097 <= 4096 * 8 -> needed_info_frames 4096 4097 <= 8).
Proof.
  apply (needed_info_frames_monotone 4096 4096 4097).
  - lia.
  - unfold word. rewrite modulus_eq. lia.
  - unfold word. rewrite modulus_eq. lia.
  - lia.
Defined.

(** ** More on how the operations compose *)

(** X19: a frame just marked inaccessible is not part of the run that the
    next successful request hands out, and its byte still says
    inaccessible afterwards. *)
Theorem marked_frame_not_handed_out (m : memory) (p : ContFramePool)
  (f : Z) (m1 : memory) (p1 : ContFramePool) (n : Z)
  (m2 : memory) (p2 : ContFramePool) (g : Z) :
  well_typed p -> 1 <= nframes p ->
  base_frame_no p + nframes p <= modulus ->
  mark_inaccessible m p f = Returns (m1, p1) ->
  1 <= n ->
  get_frames m1 p1 n = (m2, p2, g) -> g <> 0 ->
  ~ (g <= f < g + n) /\
  m2 (bitmap p + (f - base_frame_no p)) = INACCESSIBLE.
Proof.
  intros Hwt H1 Hfit Hmark Hn Hget Hg.
  destruct (Z_le_gt_dec (base_frame_no p) f) as [Hlo|Hlo];
    [destruct (Z_lt_ge_dec f (wrap (base_frame_no p + nframes p)))
       as [Hhi|Hhi]|];
    try (rewrite mark_inaccessible_outside in Hmark by lia; discriminate).
  destruct (mark_inaccessible_inside m p f Hwt (conj Hlo Hhi)) as [Hidx E].
  rewrite E in Hmark. injection Hmark as <- <-.
  destruct Hwt as (Hb & Hnf & Hfree).
  assert (Hword : word (nFreeFrames
                          (set_nFreeFrames p (wrap (nFreeFrames p - 1)))))
    by apply wrap_word.
  destruct (get_frames_spec
              (store m (bitmap p + (f - base_frame_no p)) INACCESSIBLE)
              _ n Hn Hword)
    as [[E2 _]|(off & m2' & E2 & _ & (H0 & Hle & Hrun & _)
                & (_ & _ & Hrest))];
    rewrite E2 in Hget; injection Hget as <- <- <-; [contradiction|].
  cbn [set_nFreeFrames base_frame_no nframes bitmap] in *.
  unfold word in *.
  rewrite (wrap_small (nframes p - 1)) in Hle by (unfold word; lia).
  rewrite wrap_small by (unfold word; lia).
  assert (Hout : ~ (off <= f - base_frame_no p < off + n)).
  { intros Hin. specialize (Hrun (f - base_frame_no p) Hin).
    cbn [bitmap set_nFreeFrames] in Hrun. rewrite store_same in Hrun.
    discriminate. }
  split; [lia|]. rewrite Hrest by lia. apply store_same.
Qed.

Lemma marked_frame_not_handed_out_witness :
  ~ (snd (get_frames (mem marked_once) (pool0 marked_once) 1) <= 513
     < snd (get_frames (mem marked_once) (pool0 marked_once) 1) + 1) /\
  fst (fst (get_frames (mem marked_once) (pool0 marked_once) 1))
    (bitmap (pool0 one_pool) + (513 - base_frame_no (pool0 one_pool)))
  = INACCESSIBLE.
Proof.
  apply (marked_frame_not_handed_out (mem one_pool) (pool0 one_pool) 513
           (mem marked_once) (pool0 marked_once) 1
           (fst (fst (get_frames (mem marked_once) (pool0 marked_once) 1)))
           (snd (fst (get_frames (mem marked_once) (pool0 marked_once) 1)))
           (snd (get_frames (mem marked_once) (pool0 marked_once) 1))).
  - vm_compute. repeat split; discriminate.
  - vm_compute. discriminate.
  - vm_compute. discriminate.
  - reflexivity.
  - lia.
  - reflexivity.
  - vm_compute. discriminate.
Defined.

(** X20: where a request succeeds, every smaller request for at least one
    frame succeeds too, at an offset that is no larger. *)
Theorem get_frames_smaller_request (m : memory) (p : ContFramePool)
  (n n' : Z) (m' : memory) (p' : ContFramePool) (f' : Z) :
  1 <= n <= n' -> word (nFreeFrames p) ->
  get_frames m p n' = (m', p', f') -> f' <> 0 ->
  exists off off' m2,
    off <= off' /\
    f' = wrap (base_frame_no p + off') /\
    first_fit m p n off /\
    get_frames m p n
    = (m2, set_nFreeFrames p (nFreeFrames p - n),
       wrap (base_frame_no p + off)).
Proof.
  intros [Hn Hnn] Hfree Hget Hf.
  destruct (get_frames_spec m p n' ltac:(lia) Hfree)
    as [[E _]|(off' & m1 & E & Hge & (H0 & Hle & Hrun & _) & _)];
    rewrite E in Hget; injection Hget as <- <- <-; [contradiction|].
  destruct (get_frames_spec m p n Hn Hfree)
    as [[_ [Hfew|Hno]]|(off & m2 & E2 & _ & Hfit & _)].
  - lia.
  - exfalso. apply (Hno off'); [lia|lia|].
    intros j Hj. apply Hrun. lia.
  - exists off, off', m2. split; [|auto].
    destruct Hfit as (_ & _ & _ & Hfirst).
    destruct (Z_le_gt_dec off off') as [Hle'|Hgt]; [exact Hle'|].
    exfalso. apply (Hfirst off'); [lia|].
    intros j Hj. apply Hrun. lia.
Qed.

Lemma get_frames_smaller_request_witness :
  exists off off' m2,
    off <= off' /\
    513 = wrap (base_frame_no (pool0 one_pool) + off') /\
    first_fit (mem one_pool) (pool0 one_pool) 1 off /\
    get_frames (mem one_pool) (pool0 one_pool) 1
    = (m2, set_nFreeFrames (pool0 one_pool)
             (nFreeFrames (pool0 one_pool) - 1),
       wrap (base_frame_no (pool0 one_pool) + off)).
Proof.
  apply (get_frames_smaller_request (mem one_pool) (pool0 one_pool) 1 2
           (mem after_get2) (pool0 after_get2) 513).
  - lia.
  - vm_compute. split; [discriminate|reflexivity].
  - reflexivity.
  - discriminate.
Defined.


